(** * The address book of [AddresBook_Levenshtein.py]

    A shallow embedding of the record store (classes [Field], [Record],
    [AddressBook]), of the search functions and of the fuzzy name
    suggestion, with the properties stated about them.

    Conventions of the embedding:
    - a Python exception is a value [Raise e] of the type [result];
    - a Python object that is compared with [==] and defines no [__eq__]
      carries its identity [oid]; equality of such objects is equality of
      identities;
    - [self.data] of the [UserDict] is an insertion-ordered association list,
      [self.free_ids] is a finite set of integers;
    - the text of a field is a string whose characters are its code
      points, so text of code points below 256; the edit distance and the
      fuzzy suggestion are given over sequences of any characters;
    - text read with [input] and the clock read with [datetime.now] are
      arguments of the functions that use them; text written with [print]
      is a returned [Message]. *)

From Stdlib Require Import ZArith Lia Ascii String List Bool.
From stdpp Require Import gmap strings list.

Local Open Scope Z_scope.

Set Warnings "-clear-no-such-hyp".

(** ** Exceptions *)

Inductive exn : Type := ValueError.

Inductive result (A : Type) : Type :=
| Ok (a : A)
| Raise (e : exn).

Arguments Ok {A} a.
Arguments Raise {A} e.

(** Sequencing: an exception raised by the first statement skips the
    rest ([x ← c; k] below). *)
#[global] Instance result_bind : MBind result :=
  fun A B (f : A → result B) (x : result A) =>
    match x with
    | Ok a => f a
    | Raise e => Raise e
    end.

(** ** Fields *)

(** [class Field]: [self.value = value].  [Name], [Phone], [Email] and
    [Note] are subclasses that add no attribute.  None of them defines
    [__eq__], so [a == b] is [a is b]. *)
Record Field : Type := mkField { oid : nat; value : string }.

Definition Field_eqb (a b : Field) : bool := Nat.eqb (oid a) (oid b).

(** [class Address] *)
Record Address : Type := mkAddress
  { street : string; city : string; postal_code : string; country : string }.

(** [class Tag] *)
Record Tag : Type := mkTag { tag_oid : nat; tag_name : string }.

Definition Tag_eqb (a b : Tag) : bool := Nat.eqb (tag_oid a) (tag_oid b).

(** A calendar date.  The [value] of a [Birthday] is kept as the date that
    [datetime.strptime(value, "%Y-%m-%d")] yields for it. *)
Record date : Type := mkDate { year : Z; month : Z; day : Z }.

(** ** Python lists *)

(** [list.remove(x)]: removes the first item equal to [x], raises
    [ValueError] when there is none. *)
Fixpoint list_remove {A : Type} (eqb : A → A → bool) (x : A) (l : list A)
  : result (list A) :=
  match l with
  | [] => Raise ValueError
  | y :: l' =>
      if eqb y x then Ok l'
      else r ← list_remove eqb x l' ; Ok (y :: r)
  end.

(** [list.append(x)] *)
Definition list_append {A : Type} (x : A) (l : list A) : list A := l ++ [x].

(** [x in l] *)
Definition list_contains {A : Type} (eqb : A → A → bool) (x : A) (l : list A)
  : bool :=
  existsb (fun y => eqb y x) l.

(** [x] occurs in [l], first at the end of [pre]: [e] is the first item
    of [l] that [eqb] equates with [x]. *)
Definition first_occurrence {A : Type} (eqb : A → A → bool) (x : A)
  (l pre : list A) (e : A) (post : list A) : Prop :=
  l = pre ++ e :: post
  ∧ eqb e x = true
  ∧ ∀ y, In y pre → eqb y x = false.

(** ** Records *)

(** [class Record] *)
Record record : Type := mkRecord
  { id : option Z;
    name : Field;
    phones : list Field;
    emails : list Field;
    birthday : option date;
    address : option Address;
    tags : list Tag;
    notes : list Field }.

Definition set_id (i : option Z) (r : record) : record :=
  mkRecord i (name r) (phones r) (emails r) (birthday r) (address r)
           (tags r) (notes r).

Definition set_phones (l : list Field) (r : record) : record :=
  mkRecord (id r) (name r) l (emails r) (birthday r) (address r)
           (tags r) (notes r).

Definition set_emails (l : list Field) (r : record) : record :=
  mkRecord (id r) (name r) (phones r) l (birthday r) (address r)
           (tags r) (notes r).

Definition set_notes (l : list Field) (r : record) : record :=
  mkRecord (id r) (name r) (phones r) (emails r) (birthday r) (address r)
           (tags r) l.

(** [Record.__init__(name, birthday)] *)
Definition new_record (n : Field) (b : option date) : record :=
  mkRecord None n [] [] b None [] [].

(** The methods of [Record] that change it return the record as it is
    after the call next to the outcome of the call; an exception leaves
    the record as the statements before it made it. *)

Definition add_phone (p : Field) (r : record) : record * result unit :=
  (set_phones (list_append p (phones r)) r, Ok tt).

Definition remove_phone (p : Field) (r : record) : record * result unit :=
  match list_remove Field_eqb p (phones r) with
  | Ok l => (set_phones l r, Ok tt)
  | Raise e => (r, Raise e)
  end.

Definition edit_phone (old_phone new_phone : Field) (r : record)
  : record * result unit :=
  match remove_phone old_phone r with
  | (r1, Ok _) => add_phone new_phone r1
  | (r1, Raise e) => (r1, Raise e)
  end.

Definition add_email (e : Field) (r : record) : record * result unit :=
  (set_emails (list_append e (emails r)) r, Ok tt).

Definition remove_email (e : Field) (r : record) : record * result unit :=
  match list_remove Field_eqb e (emails r) with
  | Ok l => (set_emails l r, Ok tt)
  | Raise e => (r, Raise e)
  end.

Definition edit_email (old_email new_email : Field) (r : record)
  : record * result unit :=
  match remove_email old_email r with
  | (r1, Ok _) => add_email new_email r1
  | (r1, Raise e) => (r1, Raise e)
  end.

Definition add_note (n : Field) (r : record) : record * result unit :=
  (set_notes (list_append n (notes r)) r, Ok tt).

Definition remove_note (n : Field) (r : record) : record * result unit :=
  match list_remove Field_eqb n (notes r) with
  | Ok l => (set_notes l r, Ok tt)
  | Raise e => (r, Raise e)
  end.

Definition edit_note (old_note new_note : Field) (r : record)
  : record * result unit :=
  match remove_note old_note r with
  | (r1, Ok _) => add_note new_note r1
  | (r1, Raise e) => (r1, Raise e)
  end.

(** ** The dictionary [self.data] *)

Definition pydict : Type := list (Z * record).

(** [k in d] *)
Definition dict_contains (k : Z) (d : pydict) : bool :=
  existsb (fun kv => Z.eqb (fst kv) k) d.

(** [d[k]] as an option *)
Fixpoint dict_get (k : Z) (d : pydict) : option record :=
  match d with
  | [] => None
  | (k', v) :: d' => if Z.eqb k' k then Some v else dict_get k d'
  end.

(** [d[k] = v]: an existing key keeps its position, a new key goes last. *)
Fixpoint dict_set (k : Z) (v : record) (d : pydict) : pydict :=
  match d with
  | [] => [(k, v)]
  | (k', v') :: d' =>
      if Z.eqb k' k then (k, v) :: d' else (k', v') :: dict_set k v d'
  end.

(** [del d[k]] for a key that is present. *)
Definition dict_del (k : Z) (d : pydict) : pydict :=
  List.filter (fun kv => negb (Z.eqb (fst kv) k)) d.

Definition dict_keys (d : pydict) : list Z := List.map fst d.
Definition dict_values (d : pydict) : list record := List.map snd d.

(** ** The store *)

(** [class AddressBook(UserDict)] *)
Record AddressBook : Type := mkBook
  { data : pydict; next_id : Z; free_ids : gset Z }.

(** [AddressBook.__init__] *)
Definition fresh : AddressBook := mkBook [] 1 ∅.

Inductive Message : Type :=
| MsgAdded (i : Z)       (* "Dodano wpis z ID: ..." *)
| MsgDeleted (i : Z)     (* "Usunieto rekord o ID: ..." *)
| MsgNotFound            (* "Nie znaleziono rekordu o podanym ID." *)
| MsgInvalidId.          (* "Nieprawidlowe ID. Prosze podac liczbe." *)

(** The loop
    [while self.next_id in self.data or self.next_id in self.free_ids:
       self.next_id += 1]
    with a bound on the number of iterations. *)
Fixpoint advance (fuel : nat) (d : pydict) (free : gset Z) (n : Z) : Z :=
  match fuel with
  | O => n
  | S fuel' =>
      if dict_contains n d || bool_decide (n ∈ free)
      then advance fuel' d free (n + 1)
      else n
  end.

(** Every iteration of the loop leaves behind one key of [d] or one member
    of [free], so this many iterations are enough ([advance_exits]). *)
Definition advance_fuel (d : pydict) (free : gset Z) : nat :=
  (length d + length (elements free))%nat.

(** [min(s)] of a set with first element [x] and others [xs]. *)
Definition min_of (x : Z) (xs : list Z) : Z := fold_right Z.min x xs.

(** [AddressBook.add_record]; the record with its [id] stamped is returned
    next to the store, as the caller's object is the stored one.  Records
    are values here: the store holds what the object is when the call
    ends.  An object stored a second time is one object under two keys in
    the source and two values here, so nothing is stated below of the
    [id] of a record stored earlier. *)
Definition add_record (r : record) (b : AddressBook)
  : AddressBook * record * Message :=
  let n := advance (advance_fuel (data b) (free_ids b))
                   (data b) (free_ids b) (next_id b) in
  match elements (free_ids b) with
  | x :: xs =>
      let rid := min_of x xs in
      let r' := set_id (Some rid) r in
      (mkBook (dict_set rid r' (data b)) n (free_ids b ∖ {[rid]}),
       r', MsgAdded rid)
  | [] =>
      let r' := set_id (Some n) r in
      (mkBook (dict_set n r' (data b)) (n + 1) (free_ids b),
       r', MsgAdded n)
  end.

(** [AddressBook.delete_record_by_id]; [parsed] is what
    [int(user_input.replace("ID: ", "").strip())] gives for the line
    read, [None] when it raises [ValueError]. *)
Definition delete_record_by_id (parsed : option Z) (b : AddressBook)
  : AddressBook * Message :=
  match parsed with
  | Some record_id =>
      if dict_contains record_id (data b)
      then (mkBook (dict_del record_id (data b)) (next_id b)
                   ({[record_id]} ∪ free_ids b),
            MsgDeleted record_id)
      else (b, MsgNotFound)
  | None => (b, MsgInvalidId)
  end.

(** Sequences of store operations. *)
Inductive Op : Type :=
| OpAdd (r : record)
| OpDelete (parsed : option Z).

Definition step (b : AddressBook) (o : Op) : AddressBook :=
  match o with
  | OpAdd r => fst (fst (add_record r b))
  | OpDelete p => fst (delete_record_by_id p b)
  end.

Definition run (ops : list Op) : AddressBook := fold_left step ops fresh.

(** The live identifiers: the keys of [self.data]. *)
Definition live_ids (b : AddressBook) : gset Z :=
  list_to_set (dict_keys (data b)).

(** The pool of free identifiers and the live identifiers are disjoint. *)
Definition disjoint_inv (b : AddressBook) : Prop :=
  free_ids b ∩ live_ids b = ∅.

(** Under normal flow the counter is past every identifier in use. *)
Definition counter_inv (b : AddressBook) : Prop :=
  ∀ k, k ∈ free_ids b ∪ live_ids b → k < next_id b.

(** The test of the loop of [add_record]. *)
Definition collides (d : pydict) (free : gset Z) (n : Z) : bool :=
  dict_contains n d || bool_decide (n ∈ free).

(** The candidates a run of the loop can step over. *)
Definition taken (d : pydict) (free : gset Z) : list Z :=
  dict_keys d ++ elements free.

(** How many of them are at or above [n]: the variant of the loop. *)
Definition count_from (n : Z) (l : list Z) : nat :=
  length (List.filter (fun x => n <=? x) l).

(** The store, the stamped identifier and the stored record of an
    [add_record]. *)
Definition book_after_add (r : record) (b : AddressBook) : AddressBook :=
  fst (fst (add_record r b)).

Definition assigned_id (r : record) (b : AddressBook) : option Z :=
  id (snd (fst (add_record r b))).

Definition with_next_id (n : Z) (b : AddressBook) : AddressBook :=
  mkBook (data b) n (free_ids b).

(** [m] is the minimum of the set [s]. *)
Definition is_min (m : Z) (s : gset Z) : Prop :=
  m ∈ s ∧ ∀ k, k ∈ s → m ≤ k.

(** [n] is the first integer from [start] on that is neither live nor in
    the pool of free identifiers. *)
Definition first_unused (b : AddressBook) (start n : Z) : Prop :=
  start ≤ n
  ∧ collides (data b) (free_ids b) n = false
  ∧ ∀ k, start ≤ k < n → collides (data b) (free_ids b) k = true.

(** ** Strings *)

(** [s.startswith(p)] *)
Fixpoint str_startswith (p s : string) : bool :=
  match p, s with
  | EmptyString, _ => true
  | String a p', String b s' => Ascii.eqb a b && str_startswith p' s'
  | String _ _, EmptyString => false
  end.

(** [needle in hay] for two strings: [needle] occurs in [hay] as a
    contiguous substring. *)
Fixpoint str_in (needle hay : string) : bool :=
  str_startswith needle hay ||
  match hay with
  | EmptyString => false
  | String _ hay' => str_in needle hay'
  end.

(** What [str_in] decides. *)
Definition substring_of (needle hay : string) : Prop :=
  ∃ pre post, hay = pre +:+ needle +:+ post.

(** ** Search *)

Section Search.

(** [str.lower] *)
Variable lower : string → string.

(** The body of the loop of [find_record] for one [record]:
    what it appends to [found_records]. *)
Definition find_record_body (search_term : string) (r : record)
  : list record :=
  if str_in (lower search_term) (lower (value (name r))) then [r]
  else
    (if existsb (fun phone => str_in search_term (value phone)) (phones r)
     then [r] else [])
    ++
    (if existsb (fun email => str_in search_term (value email)) (emails r)
     then [r] else []).

(** The loop of [find_record] over [records], from an empty
    [found_records]. *)
Definition find_record_loop (search_term : string) (records : list record)
  : list record :=
  fold_left (fun found_records r =>
               found_records ++ find_record_body search_term r)
            records [].

(** [AddressBook.find_record] *)
Definition find_record (search_term : string) (b : AddressBook)
  : list record :=
  find_record_loop search_term (dict_values (data b)).

(** [AddressBook.find_records_by_name] *)
Definition find_records_by_name (nm : string) (b : AddressBook)
  : list (Z * record) :=
  List.filter (fun kv => str_in (lower nm) (lower (value (name (snd kv)))))
              (data b).

(** The search condition in words: the term occurs in the name when
    both are lower-cased, or as it is in a phone or in an email. *)
Definition matches (search_term : string) (r : record) : Prop :=
  substring_of (lower search_term) (lower (value (name r)))
  ∨ (∃ phone, In phone (phones r) ∧ substring_of search_term (value phone))
  ∨ (∃ email, In email (emails r) ∧ substring_of search_term (value email)).

End Search.

(** [str.lower] on text of the 7-bit character set. *)
Definition ascii_lower_char (c : ascii) : ascii :=
  let n := nat_of_ascii c in
  if (Nat.leb 65 n && Nat.leb n 90)%bool then ascii_of_nat (n + 32) else c.

Fixpoint ascii_lower (s : string) : string :=
  match s with
  | EmptyString => EmptyString
  | String c s' => String (ascii_lower_char c) (ascii_lower s')
  end.

(** ** Fuzzy suggestion *)

Definition min3 (a b c : nat) : nat := Nat.min a (Nat.min b c).

Section EditDistance.

(** The characters of a Python [str] are code points.  The distance and
    the suggestion are given over sequences of characters of any type
    that has a decidable equality, code points among them. *)
Context {char : Type} `{EqDecision char}.

Definition subst_cost (a b : char) : nat := if decide (a = b) then 0 else 1.

(** Modelled from the spec: [Levenshtein.distance] is imported from a
    package outside the repository; it is the edit distance, "minimum
    number of single-character insertions, deletions, substitutions
    transforming one string into the other", computed here by the usual
    recursion on both sequences of characters. *)
Fixpoint levenshtein_distance (s t : list char) : nat :=
  match s with
  | [] => length t
  | a :: s' =>
      (fix inner (t : list char) : nat :=
         match t with
         | [] => S (length s')
         | b :: t' =>
             min3 (S (levenshtein_distance s' t))
                  (S (inner t'))
                  (subst_cost a b + levenshtein_distance s' t')%nat
         end) t
  end.

(** One single-character insertion, deletion or substitution. *)
Inductive edit_step : list char → list char → Prop :=
| edit_insert pre c post :
    edit_step (pre ++ post) (pre ++ c :: post)
| edit_delete pre c post :
    edit_step (pre ++ c :: post) (pre ++ post)
| edit_subst pre c c' post :
    edit_step (pre ++ c :: post) (pre ++ c' :: post).

(** [edits n s t]: [n] such operations transform [s] into [t]. *)
Inductive edits : nat → list char → list char → Prop :=
| edits_refl s : edits 0 s s
| edits_step n s t u : edit_step s t → edits n t u → edits (S n) s u.

End EditDistance.

(** [min(iterable, key=key)] after the first item: the item kept so far is
    replaced only by one whose key is strictly smaller. *)
Fixpoint min_loop {A : Type} (key : A → nat) (best : A) (l : list A) : A :=
  match l with
  | [] => best
  | x :: l' =>
      if Nat.ltb (key x) (key best) then min_loop key x l'
      else min_loop key best l'
  end.

(** [min(iterable, key=key)]: [ValueError] on an empty iterable. *)
Definition py_min {A : Type} (key : A → nat) (l : list A) : result A :=
  match l with
  | [] => Raise ValueError
  | x :: l' => Ok (min_loop key x l')
  end.

(** [suggest_correction_name] on candidates [(id, x)] of any kind,
    [name_value x] being the sequence of characters [x.name.value]. *)
Definition suggest_correction_name_on {char rec : Type} `{EqDecision char}
  (name_value : rec → list char)
  (name_to_edit : list char) (matching_records : list (Z * rec))
  : result (list char) :=
  closest_name ←
    py_min (fun x => levenshtein_distance name_to_edit (name_value (snd x)))
           matching_records;
  Ok (name_value (snd closest_name)).

(** The key of the suggestion: the distance from the text typed to the
    name of a candidate. *)
Definition distance_to {char rec : Type} `{EqDecision char}
  (name_value : rec → list char) (name_to_edit : list char) (x : Z * rec)
  : nat :=
  levenshtein_distance name_to_edit (name_value (snd x)).

(** The characters of a string of the records of this file, where a
    character is a code point below 256. *)
Definition chars (s : string) : list ascii := list_ascii_of_string s.

(** The key of [suggest_correction_name] on records. *)
Definition name_distance (name_to_edit : string) (x : Z * record) : nat :=
  levenshtein_distance (chars name_to_edit) (chars (value (name (snd x)))).

(** [suggest_correction_name] on the records of the book. *)
Definition suggest_correction_name
  (name_to_edit : string) (matching_records : list (Z * record))
  : result string :=
  closest_name ←
    py_min (fun x => levenshtein_distance (chars name_to_edit)
                       (chars (value (name (snd x)))))
           matching_records;
  Ok (value (name (snd closest_name))).

(** The first position of a list at which [key] is least. *)
Definition stable_argmin {A : Type} (key : A → nat) (l : list A) (x : A)
  : Prop :=
  ∃ pre post,
    l = pre ++ x :: post
    ∧ (∀ y, In y pre → (key x < key y)%nat)
    ∧ (∀ y, In y post → (key x <= key y)%nat).

(** ** Dates and times

    The part of Python's [datetime] that [Record.days_to_birthday] uses,
    after the library's documented proleptic Gregorian calendar. *)

Record datetime : Type := mkDT
  { dt_year : Z; dt_month : Z; dt_day : Z;
    dt_hour : Z; dt_minute : Z; dt_second : Z; dt_microsecond : Z }.

Definition MINYEAR : Z := 1.
Definition MAXYEAR : Z := 9999.

Definition is_leap (y : Z) : bool :=
  (y mod 4 =? 0) && (negb (y mod 100 =? 0) || (y mod 400 =? 0)).

Definition DAYS_IN_MONTH (m : Z) : Z :=
  match m with
  | 1 => 31 | 2 => 28 | 3 => 31 | 4 => 30 | 5 => 31 | 6 => 30
  | 7 => 31 | 8 => 31 | 9 => 30 | 10 => 31 | 11 => 30 | 12 => 31
  | _ => -1
  end.

Definition DAYS_BEFORE_MONTH (m : Z) : Z :=
  match m with
  | 1 => 0 | 2 => 31 | 3 => 59 | 4 => 90 | 5 => 120 | 6 => 151
  | 7 => 181 | 8 => 212 | 9 => 243 | 10 => 273 | 11 => 304 | 12 => 334
  | _ => -1
  end.

Definition days_in_month (y m : Z) : Z :=
  if (m =? 2) && is_leap y then 29 else DAYS_IN_MONTH m.

Definition days_before_year (y : Z) : Z :=
  let y1 := y - 1 in y1 * 365 + y1 / 4 - y1 / 100 + y1 / 400.

Definition days_before_month (y m : Z) : Z :=
  DAYS_BEFORE_MONTH m + (if (2 <? m) && is_leap y then 1 else 0).

Definition ymd2ord (y m d : Z) : Z :=
  days_before_year y + days_before_month y m + d.

(** The check every constructor of a date makes. *)
Definition check_date_fields (y m d : Z) : bool :=
  (MINYEAR <=? y) && (y <=? MAXYEAR)
  && (1 <=? m) && (m <=? 12)
  && (1 <=? d) && (d <=? days_in_month y m).

Definition check_time_fields (h mi s us : Z) : bool :=
  (0 <=? h) && (h <=? 23) && (0 <=? mi) && (mi <=? 59)
  && (0 <=? s) && (s <=? 59) && (0 <=? us) && (us <=? 999999).

(** A value that [datetime.now()] can return. *)
Definition valid_datetime (t : datetime) : bool :=
  check_date_fields (dt_year t) (dt_month t) (dt_day t)
  && check_time_fields (dt_hour t) (dt_minute t) (dt_second t)
                       (dt_microsecond t).

(** [Birthday.validate_birthday]: [strptime] accepts the text. *)
Definition validate_birthday (b : date) : bool :=
  check_date_fields (year b) (month b) (day b).

(** [datetime.strptime(self.birthday.value, "%Y-%m-%d")] *)
Definition bday_of (b : date) : datetime :=
  mkDT (year b) (month b) (day b) 0 0 0 0.

(** [t.replace(year=y)]: a new [datetime], [ValueError] when the day
    does not exist in that year or the year is out of range. *)
Definition replace_year (y : Z) (t : datetime) : result datetime :=
  if check_date_fields y (dt_month t) (dt_day t)
  then Ok (mkDT y (dt_month t) (dt_day t)
                (dt_hour t) (dt_minute t) (dt_second t) (dt_microsecond t))
  else Raise ValueError.

Definition dt_tuple (t : datetime) : list Z :=
  [dt_year t; dt_month t; dt_day t;
   dt_hour t; dt_minute t; dt_second t; dt_microsecond t].

(** Comparison of tuples. *)
Fixpoint tuple_lt (a b : list Z) : bool :=
  match a, b with
  | x :: a', y :: b' => (x <? y) || ((x =? y) && tuple_lt a' b')
  | [], _ :: _ => true
  | _, [] => false
  end.

(** [a > b] on naive datetimes *)
Definition dt_gt (a b : datetime) : bool := tuple_lt (dt_tuple b) (dt_tuple a).

Definition toordinal (t : datetime) : Z :=
  ymd2ord (dt_year t) (dt_month t) (dt_day t).

Definition seconds_of_day (t : datetime) : Z :=
  dt_second t + dt_minute t * 60 + dt_hour t * 3600.

(** [timedelta(days, seconds, microseconds).days]: the constructor
    carries microseconds into seconds and seconds into days. *)
Definition timedelta_days (days seconds microseconds : Z) : Z :=
  let seconds' := seconds + microseconds / 1000000 in
  days + seconds' / 86400.

(** [(a - b).days] *)
Definition sub_days (a b : datetime) : Z :=
  timedelta_days (toordinal a - toordinal b)
                 (seconds_of_day a - seconds_of_day b)
                 (dt_microsecond a - dt_microsecond b).

Inductive days_answer : Type :=
| NoBirthday           (* "Brak daty urodzenia" *)
| Days (n : Z).

(** [Record.days_to_birthday], [today] being [datetime.now()]. *)
Definition days_to_birthday (today : datetime) (r : record)
  : result days_answer :=
  match birthday r with
  | None => Ok NoBirthday
  | Some b =>
      let bday := bday_of b in
      next_birthday ← replace_year (dt_year today) bday ;
      next_birthday ←
        (if dt_gt today next_birthday
         then replace_year (dt_year today + 1) next_birthday
         else Ok next_birthday) ;
      Ok (Days (sub_days next_birthday today))
  end.

(** The instant of a datetime, in microseconds from the start of ordinal
    day 0. *)
Definition instant (t : datetime) : Z :=
  (toordinal t * 86400 + seconds_of_day t) * 1000000 + dt_microsecond t.

Definition MICROSECONDS_PER_DAY : Z := 86400 * 1000000.

(** The birthday's month and day in the year [y], at 00:00. *)
Definition at_midnight (y : Z) (b : date) : datetime :=
  mkDT y (month b) (day b) 0 0 0 0.

(** The next occurrence of a birthday in words: its month and day in the
    current year, or in the next year when that instant is strictly before
    now. *)
Definition next_occurrence (today : datetime) (b : date) : datetime :=
  let this_year := at_midnight (dt_year today) b in
  if instant this_year <? instant today
  then at_midnight (dt_year today + 1) b
  else this_year.

(** Candidates given by the code points of their names. *)
Definition code_points_of_name (x : list N) : list N := x.

(** ** Sample values *)

Definition anna : record :=
  mkRecord None (mkField 1 "Anna Kowalska")
           [mkField 2 "123456789"; mkField 3 "987654321"; mkField 4 "555666777"]
           [mkField 5 "anna@example.com"]
           (Some (mkDate 2000 1 1)) None [] [mkField 6 "first"].

Definition jan : record := new_record (mkField 7 "Jan Nowak") None.

(** A phone that [anna] does not hold, and another object with the digits
    of her first phone. *)
Definition stranger : Field := mkField 90 "000000000".
Definition lookalike : Field := mkField 91 "123456789".
Definition replacement : Field := mkField 92 "111222333".

(** A record whose phone and email both hold the digits 123, and a store
    that holds it between two others. *)
Definition ewa : record :=
  mkRecord (Some 2) (mkField 10 "Ewa Lis")
           [mkField 11 "123456789"] [mkField 12 "ewa123@example.com"]
           None None [] [].

Definition search_book : AddressBook :=
  mkBook [(1, set_id (Some 1) anna); (2, ewa); (3, set_id (Some 3) jan)]
         4 ∅.

(** A store with one live identifier and two free ones. *)
Definition sample_book : AddressBook :=
  mkBook [(7, set_id (Some 7) jan)] 7 ({[2]} ∪ {[5]}).

(** ** Deleting by name *)

(** What [delete_record] prints when it returns: either that no record
    matches, or the matching records followed by the outcome of the
    deletion. *)
Inductive DeleteReport : Type :=
| NoMatchingRecords           (* "Nie znaleziono pasujacych rekordow." *)
| Matching (found : list (Z * record)) (outcome : Message).

(** [print(record)], that is [Record.__str__], for what it can raise; the
    text is left out.  With a birthday set it calls [days_to_birthday]
    and lets its [ValueError] through.  [today] is the reading of the
    clock in that call. *)
Definition print_record (today : datetime) (r : record) : result unit :=
  match birthday r with
  | None => Ok tt
  | Some _ => _ ← days_to_birthday today r; Ok tt
  end.

(** The loop [for record_id, record in matching_records: print(...)];
    [clock i] is the reading of the clock when the record at position
    [i] is printed, the first of [l] being at position [i]. *)
Fixpoint print_records (clock : nat → datetime) (i : nat)
  (l : list (Z * record)) : result unit :=
  match l with
  | [] => Ok tt
  | (_, r) :: l' => _ ← print_record (clock i) r; print_records clock (S i) l'
  end.

(** [AddressBook.delete_record]; [name_to_delete] is the first line read
    and [parsed] what [int] gives for the second line, [None] when it
    raises [ValueError].  The matching records are printed before the
    second line is read, outside the [try]: an exception raised there
    leaves the function with the store as it was. *)
Definition delete_record (lower : string → string) (clock : nat → datetime)
  (name_to_delete : string) (parsed : option Z) (b : AddressBook)
  : AddressBook * result DeleteReport :=
  match find_records_by_name lower name_to_delete b with
  | [] => (b, Ok NoMatchingRecords)
  | matching_records =>
      match print_records clock 0 matching_records with
      | Raise e => (b, Raise e)
      | Ok _ =>
          match parsed with
          | Some record_id_to_delete =>
              if dict_contains record_id_to_delete (data b)
              then (mkBook (dict_del record_id_to_delete (data b))
                           (next_id b)
                           ({[record_id_to_delete]} ∪ free_ids b),
                    Ok (Matching matching_records
                                 (MsgDeleted record_id_to_delete)))
              else (b, Ok (Matching matching_records MsgNotFound))
          | None => (b, Ok (Matching matching_records MsgInvalidId))
          end
      end
  end.

(** The stores that [add_record], [delete_record_by_id] and
    [delete_record] make of the fresh one. *)
Inductive reachable (lower : string → string) : AddressBook → Prop :=
| reach_fresh : reachable lower fresh
| reach_add r b :
    reachable lower b → reachable lower (book_after_add r b)
| reach_delete_by_id parsed b :
    reachable lower b → reachable lower (fst (delete_record_by_id parsed b))
| reach_delete clock nm parsed b :
    reachable lower b →
    reachable lower (fst (delete_record lower clock nm parsed b)).

(** Every identifier from 1 up to the counter is live or free, and no
    other is. *)
Definition range_inv (b : AddressBook) : Prop :=
  1 ≤ next_id b
  ∧ ∀ k, k ∈ free_ids b ∪ live_ids b ↔ 1 ≤ k < next_id b.

(** A store of three records added in turn, the second deleted. *)
Definition three_then_delete : AddressBook :=
  run [OpAdd anna; OpAdd jan; OpAdd anna; OpDelete (Some 2)].

(** What holds of every store made from the fresh one. *)
Definition store_inv (b : AddressBook) : Prop :=
  disjoint_inv b ∧ range_inv b.

(** A store that no sequence of operations makes: 2 is live and free. *)
Definition overlapping_book : AddressBook :=
  mkBook [(1, set_id (Some 1) anna); (2, set_id (Some 2) jan)] 3 {[2]}.

(** ** Paging *)

(** [AddressBook.__iter__]: the cursor [self.current] is set to 0. *)
Definition iter_start : nat := 0.

(** [AddressBook.__next__] at the cursor [current]: the batch returned
    and the cursor after the call; [None] stands for [StopIteration]. *)
Definition iter_next (b : AddressBook) (current : nat)
  : option (list record) * nat :=
  if (current <? length (data b))%nat
  then (Some (firstn 5 (skipn current (dict_values (data b)))),
        (current + 5)%nat)
  else (None, current).

(** The batches a [for] loop over the book receives from the cursor
    [current] on, the book not being changed meanwhile; at most [fuel]
    calls of [__next__] are made. *)
Fixpoint batches_from (fuel : nat) (b : AddressBook) (current : nat)
  : list (list record) :=
  match fuel with
  | O => []
  | S fuel' =>
      match iter_next b current with
      | (Some records, current') => records :: batches_from fuel' b current'
      | (None, _) => []
      end
  end.

(** [for records in book]: [__iter__], then [__next__] until it raises.
    One call for each record and one more are enough
    ([paging_ends]). *)
Definition batches (b : AddressBook) : list (list record) :=
  batches_from (S (length (data b))) b iter_start.

(** A store of twelve records. *)
Definition twelve_book : AddressBook :=
  run (repeat (OpAdd jan) 12).

(** ** More on dates *)

(** The extra day of a leap year. *)
Definition leap_day (y : Z) : Z := if is_leap y then 1 else 0.

(** The microseconds since 00:00 of the day. *)
Definition time_of_day (t : datetime) : Z :=
  seconds_of_day t * 1000000 + dt_microsecond t.

(** The time is 00:00:00.000000. *)
Definition is_midnight (t : datetime) : bool :=
  (dt_hour t =? 0) && (dt_minute t =? 0) && (dt_second t =? 0)
  && (dt_microsecond t =? 0).

(** A record born on 29 February, and a store that holds it. *)
Definition ola : record :=
  new_record (mkField 30 "Ola") (Some (mkDate 2000 2 29)).

Definition leap_book : AddressBook :=
  mkBook [(1, set_id (Some 1) anna); (2, set_id (Some 2) ola)] 3 ∅.

(** A clock that stands at noon of 15 June 2023. *)
Definition june_2023 (i : nat) : datetime := mkDT 2023 6 15 12 0 0 0.

(** ** Regular expressions *)

(** The patterns of the validators, as [re] reads them.  A character is
    matched by a class, given as a test on characters. *)
Inductive regex : Type :=
| Void
| Eps
| Chars (cls : ascii → bool)
| Seq (r1 r2 : regex)
| Alt (r1 r2 : regex)
| Star (r : regex).

(** [r+] *)
Definition Plus (r : regex) : regex := Seq r (Star r).

(** [r{n}] *)
Fixpoint Times (n : nat) (r : regex) : regex :=
  match n with
  | O => Eps
  | S n' => Seq r (Times n' r)
  end.

(** The words a pattern matches in full. *)
Inductive re_lang : regex → list ascii → Prop :=
| lang_eps : re_lang Eps []
| lang_chars cls c : cls c = true → re_lang (Chars cls) [c]
| lang_seq r1 r2 s1 s2 :
    re_lang r1 s1 → re_lang r2 s2 → re_lang (Seq r1 r2) (s1 ++ s2)
| lang_alt_l r1 r2 s : re_lang r1 s → re_lang (Alt r1 r2) s
| lang_alt_r r1 r2 s : re_lang r2 s → re_lang (Alt r1 r2) s
| lang_star_nil r : re_lang (Star r) []
| lang_star_cons r s1 s2 :
    re_lang r s1 → re_lang (Star r) s2 → re_lang (Star r) (s1 ++ s2).

(** Does the pattern match the empty word? *)
Fixpoint nullable (r : regex) : bool :=
  match r with
  | Void => false
  | Eps => true
  | Chars _ => false
  | Seq r1 r2 => nullable r1 && nullable r2
  | Alt r1 r2 => nullable r1 || nullable r2
  | Star _ => true
  end.

(** What is left of the pattern after the character [c]. *)
Fixpoint deriv (c : ascii) (r : regex) : regex :=
  match r with
  | Void => Void
  | Eps => Void
  | Chars cls => if cls c then Eps else Void
  | Seq r1 r2 =>
      if nullable r1
      then Alt (Seq (deriv c r1) r2) (deriv c r2)
      else Seq (deriv c r1) r2
  | Alt r1 r2 => Alt (deriv c r1) (deriv c r2)
  | Star r1 => Seq (deriv c r1) (Star r1)
  end.

(** The pattern matches the whole of [s]. *)
Fixpoint re_fullmatch (r : regex) (s : list ascii) : bool :=
  match s with
  | [] => nullable r
  | c :: s' => re_fullmatch (deriv c r) s'
  end.

(** ** The validators *)

(** The code of [c] is between [lo] and [hi]. *)
Definition in_range (lo hi : nat) (c : ascii) : bool :=
  (Nat.leb lo (nat_of_ascii c) && Nat.leb (nat_of_ascii c) hi)%bool.

(** [c] is the character [x]. *)
Definition is_char (x c : ascii) : bool := Ascii.eqb c x.

(** [\d] on characters below 256 *)
Definition is_digit (c : ascii) : bool := in_range 48 57 c.

(** [a-zA-Z0-9] *)
Definition is_alnum (c : ascii) : bool :=
  in_range 97 122 c || in_range 65 90 c || in_range 48 57 c.

(** [[a-zA-Z0-9_.+-]] *)
Definition local_char (c : ascii) : bool :=
  is_alnum c || is_char "_" c || is_char "." c || is_char "+" c
  || is_char "-" c.

(** [[a-zA-Z0-9-]] *)
Definition domain_char (c : ascii) : bool := is_alnum c || is_char "-" c.

(** [[a-zA-Z0-9-.]] *)
Definition tail_char (c : ascii) : bool :=
  is_alnum c || is_char "-" c || is_char "." c.

(** The character [\n]. *)
Definition newline : ascii := "010"%char.

(** [$] closing a pattern: the end of the string, or the newline that
    ends it. *)
Definition dollar : regex := Alt Eps (Chars (is_char newline)).

(** [^\d{9}$] *)
Definition phone_pattern : regex := Seq (Times 9 (Chars is_digit)) dollar.

(** [^[a-zA-Z0-9_.+-]+@[a-zA-Z0-9-]+\.[a-zA-Z0-9-.]+$] *)
Definition email_pattern : regex :=
  Seq (Plus (Chars local_char))
    (Seq (Chars (is_char "@"))
       (Seq (Plus (Chars domain_char))
          (Seq (Chars (is_char "."))
             (Seq (Plus (Chars tail_char)) dollar)))).

(** [pattern.match(value) is not None] for a pattern between [^] and
    [$]: the pattern, [$] included, matches the whole of [value]. *)
Definition re_match (pattern : regex) (value : string) : bool :=
  re_fullmatch pattern (list_ascii_of_string value).

(** [Phone.validate_phone] *)
Definition validate_phone (value : string) : bool :=
  re_match phone_pattern value.

(** [Email.validate_email] *)
Definition validate_email (value : string) : bool :=
  re_match email_pattern value.

(** [Phone(value)], [o] being the identity of the object made. *)
Definition Phone (o : nat) (value : string) : result Field :=
  if validate_phone value then Ok (mkField o value) else Raise ValueError.

(** [Email(value)] *)
Definition Email (o : nat) (value : string) : result Field :=
  if validate_email value then Ok (mkField o value) else Raise ValueError.

(** Every character of [s] is in the class. *)
Definition all_chars (cls : ascii → bool) (s : list ascii) : Prop :=
  Forall (fun c => cls c = true) s.

(** ** Editing a record *)

(** What the phone step of [edit_record] prints. *)
Inductive EditOutcome : Type :=
| Updated          (* "Numer telefonu zaktualizowany." *)
| BadIndex         (* "Niepoprawny indeks numeru." *)
| BadValue         (* "Nieprawidlowa wartosc. Wprowadz numer." *)
| Kept             (* an empty line: nothing to do *)
| NothingToEdit.   (* "Brak numerow telefonu do edycji." *)

(** The phone step of [edit_record] on the record chosen.
    [phone_to_edit] is the line read: [None] when it is blank,
    [Some None] when [int] raises [ValueError] on it, [Some (Some k)] when
    it parses to [k]; [new_phone_number] is the second line, read only for
    an index in range, and [o] the identity of the [Phone] made of
    it. *)
Definition edit_record_phones (phone_to_edit : option (option Z))
  (new_phone_number : string) (o : nat) (r : record)
  : record * EditOutcome :=
  match phones r with
  | [] => (r, NothingToEdit)
  | _ :: _ =>
      match phone_to_edit with
      | None => (r, Kept)
      | Some None => (r, BadValue)
      | Some (Some k) =>
          let idx := k - 1 in
          if (0 <=? idx) && (idx <? Z.of_nat (length (phones r)))
          then
            match nth_error (phones r) (Z.to_nat idx) with
            | Some old_phone =>
                match Phone o new_phone_number with
                | Ok new_phone =>
                    match edit_phone old_phone new_phone r with
                    | (r', Ok _) => (r', Updated)
                    | (r', Raise _) => (r', BadValue)
                    end
                | Raise _ => (r, BadValue)
                end
            | None => (r, BadIndex)
            end
          else (r, BadIndex)
      end
  end.

(** ** The collections of a record *)

(** ** Tags *)

Definition set_tags (l : list Tag) (r : record) : record :=
  mkRecord (id r) (name r) (phones r) (emails r) (birthday r) (address r)
           l (notes r).

(** [Record.add_tag] *)
Definition add_tag (t : Tag) (r : record) : record * result unit :=
  (set_tags (list_append t (tags r)) r, Ok tt).

(** [Record.remove_tag] *)
Definition remove_tag (t : Tag) (r : record) : record * result unit :=
  match list_remove Tag_eqb t (tags r) with
  | Ok l => (set_tags l r, Ok tt)
  | Raise e => (r, Raise e)
  end.

(** * Properties *)

(** ** The dictionary *)

Lemma dict_contains_keys (k : Z) (d : pydict) :
  dict_contains k d = true ↔ In k (dict_keys d).
Proof.
  unfold dict_contains, dict_keys. rewrite existsb_exists, in_map_iff.
  split.
  - intros [kv [Hin Heq]]. exists kv. apply Z.eqb_eq in Heq. auto.
  - intros [kv [Heq Hin]]. exists kv. split; [exact Hin|]. now apply Z.eqb_eq.
Qed.

Lemma dict_contains_false (k : Z) (d : pydict) :
  dict_contains k d = false ↔ ¬ In k (dict_keys d).
Proof.
  rewrite <- dict_contains_keys. destruct (dict_contains k d); split;
    intros H; try discriminate; try reflexivity; try (intros H'; discriminate).
  exfalso. now apply H.
Qed.

Lemma dict_keys_set (j k : Z) (v : record) (d : pydict) :
  In j (dict_keys (dict_set k v d)) ↔ j = k ∨ In j (dict_keys d).
Proof.
  induction d as [|[k' v'] d IH]; simpl.
  - intuition.
  - destruct (Z.eqb_spec k' k) as [->|Hne]; simpl.
    + intuition.
    + rewrite IH. intuition.
Qed.

Lemma dict_keys_del (j k : Z) (d : pydict) :
  In j (dict_keys (dict_del k d)) ↔ j ≠ k ∧ In j (dict_keys d).
Proof.
  induction d as [|[k' v'] d IH]; simpl.
  - intuition.
  - destruct (Z.eqb_spec k' k) as [->|Hne]; simpl.
    + rewrite IH. intuition congruence.
    + rewrite IH. intuition congruence.
Qed.

Lemma dict_get_set_eq (k : Z) (v : record) (d : pydict) :
  dict_get k (dict_set k v d) = Some v.
Proof.
  induction d as [|[k' v'] d IH]; simpl.
  - now rewrite Z.eqb_refl.
  - destruct (Z.eqb_spec k' k) as [->|Hne]; simpl.
    + now rewrite Z.eqb_refl.
    + destruct (Z.eqb_spec k' k); [contradiction|exact IH].
Qed.

Lemma dict_get_set_ne (j k : Z) (v : record) (d : pydict) :
  j ≠ k → dict_get j (dict_set k v d) = dict_get j d.
Proof.
  intros Hjk. induction d as [|[k' v'] d IH]; simpl.
  - destruct (Z.eqb_spec k j); [congruence|reflexivity].
  - destruct (Z.eqb_spec k' k) as [->|Hne]; simpl.
    + destruct (Z.eqb_spec k j); [congruence|reflexivity].
    + now rewrite IH.
Qed.

Lemma dict_get_del_eq (k : Z) (d : pydict) : dict_get k (dict_del k d) = None.
Proof.
  induction d as [|[k' v'] d IH]; simpl; [reflexivity|].
  destruct (Z.eqb_spec k' k) as [->|Hne]; simpl; [exact IH|].
  destruct (Z.eqb_spec k' k); [contradiction|exact IH].
Qed.

Lemma dict_get_del_ne (j k : Z) (d : pydict) :
  j ≠ k → dict_get j (dict_del k d) = dict_get j d.
Proof.
  intros Hjk. induction d as [|[k' v'] d IH]; simpl; [reflexivity|].
  destruct (Z.eqb_spec k' k) as [->|Hne]; simpl.
  - destruct (Z.eqb_spec k j); [congruence|exact IH].
  - now rewrite IH.
Qed.

Lemma dict_get_contains (k : Z) (d : pydict) :
  dict_contains k d = true ↔ is_Some (dict_get k d).
Proof.
  induction d as [|[k' v'] d IH]; simpl.
  - split; [discriminate|]. intros [x Hx]. discriminate.
  - destruct (Z.eqb_spec k' k); simpl; [|exact IH].
    split; eauto.
Qed.

(** Deleting a key keeps the other entries in their order. *)
Lemma dict_del_order (k : Z) (d : pydict) :
  dict_del k d = List.filter (fun kv => negb (Z.eqb (fst kv) k)) d.
Proof. reflexivity. Qed.

Lemma elem_of_live_ids (k : Z) (b : AddressBook) :
  k ∈ live_ids b ↔ In k (dict_keys (data b)).
Proof.
  unfold live_ids. rewrite elem_of_list_to_set. apply list_elem_of_In.
Qed.

(** ** The allocator *)

Lemma min_of_in (x : Z) (xs : list Z) : In (min_of x xs) (x :: xs).
Proof.
  induction xs as [|y ys IH]; simpl; [now left|].
  destruct (Z.min_spec y (min_of x ys)) as [[_ ->]|[_ ->]].
  - right. now left.
  - destruct IH as [IH|IH]; [now left|right; now right].
Qed.

Lemma min_of_le (x : Z) (xs : list Z) (y : Z) :
  In y (x :: xs) → min_of x xs ≤ y.
Proof.
  induction xs as [|z zs IH]; simpl.
  - intros [->|[]]. lia.
  - intros [->|[->|Hin]].
    + specialize (IH (or_introl eq_refl)). lia.
    + lia.
    + specialize (IH (or_intror Hin)). lia.
Qed.

Lemma min_of_elements (s : gset Z) (x : Z) (xs : list Z) :
  elements s = x :: xs → is_min (min_of x xs) s.
Proof.
  intros He. split.
  - apply elem_of_elements. rewrite He. apply list_elem_of_In, min_of_in.
  - intros k Hk. apply min_of_le. apply list_elem_of_In. rewrite <- He.
    now apply elem_of_elements.
Qed.

Lemma is_min_unique (s : gset Z) (m m' : Z) :
  is_min m s → is_min m' s → m = m'.
Proof.
  intros [Hm Hle] [Hm' Hle']. specialize (Hle _ Hm'). specialize (Hle' _ Hm).
  lia.
Qed.

Lemma elements_nil_empty (s : gset Z) : elements s = [] ↔ s = ∅.
Proof.
  split.
  - intros He. apply set_eq. intros k. rewrite <- elem_of_elements, He.
    set_solver.
  - intros ->. apply elements_empty.
Qed.

Lemma collides_taken (d : pydict) (free : gset Z) (n : Z) :
  collides d free n = true ↔ In n (taken d free).
Proof.
  unfold collides, taken. rewrite orb_true_iff, in_app_iff, dict_contains_keys.
  rewrite bool_decide_eq_true, <- (elem_of_elements free n), list_elem_of_In.
  reflexivity.
Qed.

Lemma count_from_step (l : list Z) (n : Z) :
  In n l →
  (count_from (n + 1) l < count_from n l)%nat.
Proof.
  unfold count_from.
  induction l as [|y l IH]; simpl; [intros []|].
  assert (Hmono : (count_from (n + 1) l <= count_from n l)%nat).
  { clear. unfold count_from. induction l as [|z l IH]; simpl; [lia|].
    destruct (Z.leb_spec (n + 1) z), (Z.leb_spec n z); simpl; lia. }
  unfold count_from in Hmono.
  intros [->|Hin].
  - destruct (Z.leb_spec (n + 1) n); [lia|].
    destruct (Z.leb_spec n n); [simpl; lia|lia].
  - specialize (IH Hin).
    destruct (Z.leb_spec (n + 1) y), (Z.leb_spec n y); simpl; lia.
Qed.

Lemma advance_exits_from (fuel : nat) (d : pydict) (free : gset Z) (n : Z) :
  (count_from n (taken d free) <= fuel)%nat →
  collides d free (advance fuel d free n) = false.
Proof.
  revert n. induction fuel as [|fuel IH]; intros n Hcnt; simpl.
  - destruct (collides d free n) eqn:Hc; [|reflexivity].
    apply collides_taken in Hc. apply count_from_step in Hc. lia.
  - fold (collides d free n). destruct (collides d free n) eqn:Hc; [|exact Hc].
    apply IH. apply collides_taken in Hc. apply count_from_step in Hc. lia.
Qed.

(** The loop of [add_record] ends: with the iterations [add_record] allows
    it, it stops at a candidate that is neither live nor free. *)
Lemma advance_exits (d : pydict) (free : gset Z) (n : Z) :
  collides d free (advance (advance_fuel d free) d free n) = false.
Proof.
  apply advance_exits_from. unfold count_from, advance_fuel, taken, dict_keys.
  etransitivity; [apply List.filter_length_le|].
  rewrite length_app, length_map. lia.
Qed.

Lemma advance_ge (fuel : nat) (d : pydict) (free : gset Z) (n : Z) :
  n ≤ advance fuel d free n.
Proof.
  revert n. induction fuel as [|fuel IH]; intros n; simpl; [lia|].
  destruct (_ || _); [|lia]. specialize (IH (n + 1)). lia.
Qed.

Lemma advance_skipped (fuel : nat) (d : pydict) (free : gset Z) (n k : Z) :
  n ≤ k < advance fuel d free n → collides d free k = true.
Proof.
  revert n. induction fuel as [|fuel IH]; intros n; simpl; [lia|].
  fold (collides d free n). destruct (collides d free n) eqn:Hc; [|lia].
  intros Hk. destruct (Z.eq_dec k n) as [->|Hne]; [exact Hc|].
  apply (IH (n + 1)). lia.
Qed.

Lemma advance_stays (fuel : nat) (d : pydict) (free : gset Z) (n : Z) :
  collides d free n = false → advance fuel d free n = n.
Proof.
  intros Hc. destruct fuel; simpl; [reflexivity|].
  fold (collides d free n). now rewrite Hc.
Qed.

Lemma advance_first_unused (b : AddressBook) :
  first_unused b (next_id b)
    (advance (advance_fuel (data b) (free_ids b)) (data b) (free_ids b)
             (next_id b)).
Proof.
  split; [apply advance_ge|]. split; [apply advance_exits|].
  intros k. apply advance_skipped.
Qed.

Lemma first_unused_unique (b : AddressBook) (start n n' : Z) :
  first_unused b start n → first_unused b start n' → n = n'.
Proof.
  intros (Hge & Hc & Hlt) (Hge' & Hc' & Hlt').
  destruct (Z.lt_trichotomy n n') as [Hl|[->|Hl]]; [|reflexivity|].
  - rewrite Hlt' in Hc by lia. discriminate.
  - rewrite Hlt in Hc' by lia. discriminate.
Qed.

(** ** [add_record] and [delete_record_by_id], case by case *)

Lemma live_ids_set (k : Z) (v : record) (d : pydict) (n : Z) (f : gset Z) :
  live_ids (mkBook (dict_set k v d) n f) = {[k]} ∪ list_to_set (dict_keys d).
Proof.
  apply set_eq. intros j. rewrite elem_of_live_ids. simpl.
  rewrite dict_keys_set, elem_of_union, elem_of_singleton.
  rewrite elem_of_list_to_set, list_elem_of_In. reflexivity.
Qed.

Lemma live_ids_del (k : Z) (d : pydict) (n : Z) (f : gset Z) :
  live_ids (mkBook (dict_del k d) n f) = list_to_set (dict_keys d) ∖ {[k]}.
Proof.
  apply set_eq. intros j. rewrite elem_of_live_ids. simpl.
  rewrite dict_keys_del, elem_of_difference, elem_of_singleton.
  rewrite elem_of_list_to_set, list_elem_of_In. tauto.
Qed.

Lemma add_record_pool (r : record) (b : AddressBook) :
  free_ids b ≠ ∅ →
  ∃ m, is_min m (free_ids b)
       ∧ add_record r b =
           (mkBook (dict_set m (set_id (Some m) r) (data b))
                   (advance (advance_fuel (data b) (free_ids b))
                            (data b) (free_ids b) (next_id b))
                   (free_ids b ∖ {[m]}),
            set_id (Some m) r, MsgAdded m).
Proof.
  intros Hne. unfold add_record.
  destruct (elements (free_ids b)) as [|x xs] eqn:He.
  - apply elements_nil_empty in He. contradiction.
  - exists (min_of x xs). split; [now apply min_of_elements|reflexivity].
Qed.

Lemma add_record_forward (r : record) (b : AddressBook) :
  free_ids b = ∅ →
  let n := advance (advance_fuel (data b) (free_ids b))
                   (data b) (free_ids b) (next_id b) in
  add_record r b =
    (mkBook (dict_set n (set_id (Some n) r) (data b)) (n + 1) (free_ids b),
     set_id (Some n) r, MsgAdded n).
Proof.
  intros He. unfold add_record.
  apply elements_nil_empty in He. now rewrite He.
Qed.

(** ** Invariants of the store *)

Lemma add_record_disjoint (r : record) (b : AddressBook) :
  disjoint_inv b → disjoint_inv (book_after_add r b).
Proof.
  unfold disjoint_inv, book_after_add. intros Hinv.
  destruct (decide (free_ids b = ∅)) as [He|Hne].
  - rewrite (add_record_forward r b He). simpl. rewrite He. set_solver.
  - destruct (add_record_pool r b Hne) as (m & Hm & ->). simpl.
    rewrite live_ids_set. fold (live_ids b). set_solver.
Qed.

Lemma delete_disjoint (p : option Z) (b : AddressBook) :
  disjoint_inv b → disjoint_inv (fst (delete_record_by_id p b)).
Proof.
  unfold disjoint_inv. intros Hinv. destruct p as [k|]; simpl; [|exact Hinv].
  destruct (dict_contains k (data b)); simpl; [|exact Hinv].
  rewrite live_ids_del. fold (live_ids b). set_solver.
Qed.

Lemma add_record_counter (r : record) (b : AddressBook) :
  counter_inv b → counter_inv (book_after_add r b).
Proof.
  unfold counter_inv, book_after_add. intros Hinv.
  pose proof (advance_ge (advance_fuel (data b) (free_ids b))
                         (data b) (free_ids b) (next_id b)) as Hge.
  destruct (decide (free_ids b = ∅)) as [He|Hne].
  - rewrite (add_record_forward r b He). cbv zeta. simpl.
    intros k. rewrite live_ids_set. fold (live_ids b).
    rewrite !elem_of_union, elem_of_singleton.
    intros [Hk|[Hk|Hk]]; [|lia|];
      (assert (k < next_id b) by (apply Hinv; set_solver); lia).
  - destruct (add_record_pool r b Hne) as (m & [Hm _] & ->). simpl.
    intros k. rewrite live_ids_set. fold (live_ids b).
    intros Hk. assert (k < next_id b); [|lia].
    apply Hinv. set_solver.
Qed.

Lemma delete_counter (p : option Z) (b : AddressBook) :
  counter_inv b → counter_inv (fst (delete_record_by_id p b)).
Proof.
  unfold counter_inv. intros Hinv. destruct p as [k|]; simpl; [|exact Hinv].
  destruct (dict_contains k (data b)) eqn:Hc; simpl; [|exact Hinv].
  apply dict_contains_keys, elem_of_live_ids in Hc.
  intros j. rewrite live_ids_del. fold (live_ids b). intros Hj.
  apply Hinv. set_solver.
Qed.

Lemma step_counter (b : AddressBook) (o : Op) :
  counter_inv b → counter_inv (step b o).
Proof.
  destruct o; simpl; [apply add_record_counter|apply delete_counter].
Qed.

Lemma run_invariant (P : AddressBook → Prop) :
  P fresh → (∀ b o, P b → P (step b o)) → ∀ ops, P (run ops).
Proof.
  intros H0 Hstep ops. unfold run.
  generalize dependent fresh. induction ops as [|o ops IH]; simpl; auto.
Qed.

Lemma run_counter (ops : list Op) : counter_inv (run ops).
Proof.
  apply run_invariant; [|apply step_counter].
  unfold counter_inv. set_solver.
Qed.

(** In a store reached from the fresh one the loop of [add_record] makes
    no iteration. *)
Lemma counter_inv_no_collision (b : AddressBook) :
  counter_inv b → collides (data b) (free_ids b) (next_id b) = false.
Proof.
  intros Hinv. destruct (collides _ _ _) eqn:Hc; [|reflexivity].
  unfold collides in Hc. apply orb_true_iff in Hc.
  assert (next_id b < next_id b); [|lia]. apply Hinv.
  destruct Hc as [Hc|Hc].
  - apply dict_contains_keys, elem_of_live_ids in Hc. set_solver.
  - apply bool_decide_eq_true in Hc. set_solver.
Qed.

(** ** The store: identifier lifecycle *)

(** C1.  For every sequence of [add_record] and [delete_record_by_id]
    operations run from the fresh store, after each operation (after every
    prefix [take n ops] of the sequence) the pool [free_ids] and the set of
    live identifiers, the keys of the mapping, are disjoint. *)
Theorem free_ids_disjoint_from_live_ids (ops : list Op) (n : nat) :
  free_ids (run (take n ops)) ∩ live_ids (run (take n ops)) = ∅.
Proof.
  change (disjoint_inv (run (take n ops))).
  generalize (take n ops) as done. clear ops n. intros done. unfold run.
  assert (Hfresh : disjoint_inv fresh) by (unfold disjoint_inv; set_solver).
  revert Hfresh. generalize fresh as b.
  induction done as [|o done IH]; intros b Hb; simpl.
  - exact Hb.
  - apply IH. destruct o as [r|parsed]; simpl.
    + now apply add_record_disjoint.
    + now apply delete_disjoint.
Qed.

Lemma assigned_id_pool (r : record) (b : AddressBook) (m : Z) :
  is_min m (free_ids b) → assigned_id r b = Some m.
Proof.
  intros Hm. assert (Hne : free_ids b ≠ ∅) by (destruct Hm; set_solver).
  destruct (add_record_pool r b Hne) as (m' & Hm' & Heq).
  unfold assigned_id. rewrite Heq. simpl. f_equal.
  eapply is_min_unique; eauto.
Qed.

(** C2.  [add_record] assigns identifiers smallest-free-first.  When
    [free_ids] is not empty the record receives its minimum, which leaves
    the pool, whatever [next_id] is.  When it is empty the record receives
    [next_id] as the loop of [add_record] leaves it, the first integer from
    [next_id] on that is not in use, and [next_id] becomes that plus one;
    in a store reached from the fresh one this is [next_id] itself.  From
    the fresh store: adding A gives 1, adding B gives 2, and after deleting
    1 adding C gives 1. *)
Theorem add_record_smallest_free_first :
  (∀ r b, free_ids b ≠ ∅ →
     ∃ m, is_min m (free_ids b)
          ∧ assigned_id r b = Some m
          ∧ free_ids (book_after_add r b) = free_ids b ∖ {[m]}
          ∧ dict_get m (data (book_after_add r b)) = Some (set_id (Some m) r)
          ∧ ∀ n, assigned_id r (with_next_id n b) = Some m)
  ∧ (∀ r b, free_ids b = ∅ →
     ∃ n, first_unused b (next_id b) n
          ∧ assigned_id r b = Some n
          ∧ next_id (book_after_add r b) = n + 1
          ∧ free_ids (book_after_add r b) = ∅
          ∧ dict_get n (data (book_after_add r b)) = Some (set_id (Some n) r))
  ∧ (∀ ops r, free_ids (run ops) = ∅ →
       assigned_id r (run ops) = Some (next_id (run ops))
       ∧ next_id (book_after_add r (run ops)) = next_id (run ops) + 1)
  ∧ (∀ A B C,
       let b1 := book_after_add A fresh in
       let b2 := book_after_add B b1 in
       let b3 := fst (delete_record_by_id (Some 1) b2) in
       assigned_id A fresh = Some 1
       ∧ assigned_id B b1 = Some 2
       ∧ assigned_id C b3 = Some 1).
Proof.
  split; [|split; [|split]].
  - intros r b Hne.
    destruct (add_record_pool r b Hne) as (m & Hm & Heq).
    exists m. split; [exact Hm|]. split; [now apply assigned_id_pool|].
    unfold book_after_add. rewrite Heq. simpl.
    split; [reflexivity|]. split; [apply dict_get_set_eq|].
    intros n. now apply assigned_id_pool.
  - intros r b He.
    pose proof (add_record_forward r b He) as Heq. cbv zeta in Heq.
    eexists. split; [apply advance_first_unused|].
    unfold assigned_id, book_after_add. rewrite Heq. simpl.
    split; [reflexivity|]. split; [reflexivity|]. split; [exact He|].
    apply dict_get_set_eq.
  - intros ops r He.
    pose proof (add_record_forward r (run ops) He) as Heq. cbv zeta in Heq.
    rewrite advance_stays in Heq
      by (apply counter_inv_no_collision, run_counter).
    unfold assigned_id, book_after_add. rewrite Heq. simpl. auto.
  - intros A B C. vm_compute. auto.
Qed.

Lemma add_record_smallest_free_first_witness :
  free_ids sample_book ≠ ∅
  ∧ ∃ m, is_min m (free_ids sample_book)
         ∧ assigned_id anna sample_book = Some m
         ∧ free_ids (book_after_add anna sample_book)
           = free_ids sample_book ∖ {[m]}
         ∧ dict_get m (data (book_after_add anna sample_book))
           = Some (set_id (Some m) anna)
         ∧ ∀ n, assigned_id anna (with_next_id n sample_book) = Some m.
Proof.
  assert (Hne : free_ids sample_book ≠ ∅).
  { intros He. apply (f_equal elements) in He. vm_compute in He.
    discriminate. }
  split; [exact Hne|].
  exact (proj1 add_record_smallest_free_first anna sample_book Hne).
Defined.

(** C5.  For every store and identifier [i]: when [i] is a live key,
    [delete_record_by_id] removes it from the mapping, leaving the other
    entries and their order as they were, and adds [i] to [free_ids]; when
    it is not, the function reports "not found" and returns the store as it
    was, mapping, [next_id] and [free_ids].  It returns in both cases. *)
Theorem delete_record_by_id_spec (b : AddressBook) (i : Z) :
  (In i (dict_keys (data b)) →
   let b' := fst (delete_record_by_id (Some i) b) in
   snd (delete_record_by_id (Some i) b) = MsgDeleted i
   ∧ dict_get i (data b') = None
   ∧ ¬ In i (dict_keys (data b'))
   ∧ (∀ j, j ≠ i → dict_get j (data b') = dict_get j (data b))
   ∧ data b' = List.filter (fun kv => negb (fst kv =? i)) (data b)
   ∧ free_ids b' = {[i]} ∪ free_ids b
   ∧ next_id b' = next_id b)
  ∧ (¬ In i (dict_keys (data b)) →
     delete_record_by_id (Some i) b = (b, MsgNotFound)).
Proof.
  split.
  - intros Hin. apply dict_contains_keys in Hin. simpl. rewrite Hin. simpl.
    split; [reflexivity|]. split; [apply dict_get_del_eq|].
    split; [rewrite dict_keys_del; tauto|].
    split; [intros j Hj; now apply dict_get_del_ne|]. auto.
  - intros Hnin. apply dict_contains_false in Hnin. simpl. now rewrite Hnin.
Qed.

Lemma delete_record_by_id_spec_witness :
  In 7 (dict_keys (data sample_book))
  ∧ ¬ In 3 (dict_keys (data sample_book))
  ∧ free_ids (fst (delete_record_by_id (Some 7) sample_book))
    = {[7]} ∪ free_ids sample_book
  ∧ delete_record_by_id (Some 3) sample_book = (sample_book, MsgNotFound).
Proof.
  assert (H7 : In 7 (dict_keys (data sample_book))) by (simpl; auto).
  assert (H3 : ¬ In 3 (dict_keys (data sample_book)))
    by (simpl; intros [H|[]]; discriminate).
  split; [exact H7|]. split; [exact H3|]. split.
  - exact (proj1 (proj2 (proj2 (proj2 (proj2 (proj2
             (proj1 (delete_record_by_id_spec sample_book 7) H7))))))).
  - exact (proj2 (delete_record_by_id_spec sample_book 3) H3).
Defined.

(** ** Lists of fields *)

Lemma list_remove_present {A : Type} (eqb : A → A → bool) (x : A)
  (l : list A) :
  list_contains eqb x l = true →
  ∃ pre e post,
    first_occurrence eqb x l pre e post
    ∧ list_remove eqb x l = Ok (pre ++ post).
Proof.
  unfold list_contains, first_occurrence.
  induction l as [|y l IH]; simpl; [discriminate|].
  destruct (eqb y x) eqn:Hy; simpl.
  - intros _. exists [], y, l. simpl. intuition.
  - intros Hex. destruct (IH Hex) as (pre & e & post & (-> & He & Hpre) & Hrm).
    exists (y :: pre), e, post. rewrite Hrm. simpl.
    repeat split; auto. intros z [<-|Hz]; auto.
Qed.

Lemma list_remove_absent {A : Type} (eqb : A → A → bool) (x : A)
  (l : list A) :
  list_contains eqb x l = false → list_remove eqb x l = Raise ValueError.
Proof.
  unfold list_contains.
  induction l as [|y l IH]; simpl; [reflexivity|].
  destruct (eqb y x); simpl; [discriminate|].
  intros Hex. now rewrite (IH Hex).
Qed.

Lemma first_occurrence_unique {A : Type} (eqb : A → A → bool) (x : A)
  (l pre pre' : list A) (e e' : A) (post post' : list A) :
  first_occurrence eqb x l pre e post →
  first_occurrence eqb x l pre' e' post' →
  pre = pre' ∧ e = e' ∧ post = post'.
Proof.
  intros (-> & He & Hpre) (Heq & He' & Hpre').
  revert pre' Heq Hpre'. induction pre as [|y pre IH]; intros pre' Heq Hpre'.
  - destruct pre' as [|y' pre']; simpl in Heq.
    + injection Heq as -> ->. auto.
    + injection Heq as H1 _. subst y'.
      rewrite (Hpre' e) in He by now left. discriminate.
  - destruct pre' as [|y' pre']; simpl in Heq.
    + injection Heq as H1 _. subst y.
      rewrite (Hpre e') in He' by now left. discriminate.
    + injection Heq as -> Heq.
      destruct (IH (fun z Hz => Hpre z (or_intror Hz)) pre' Heq
                   (fun z Hz => Hpre' z (or_intror Hz))) as (-> & -> & ->).
      auto.
Qed.

Lemma edit_list_present (x new : Field) (l : list Field) :
  list_contains Field_eqb x l = true →
  ∃ pre e post,
    first_occurrence Field_eqb x l pre e post
    ∧ list_remove Field_eqb x l = Ok (pre ++ post)
    ∧ last (list_append new (pre ++ post)) = Some new.
Proof.
  intros Hc. destruct (list_remove_present _ _ _ Hc) as (pre & e & post & H1 & H2).
  exists pre, e, post. repeat split; try apply H1; auto.
  unfold list_append. apply last_snoc.
Qed.

(** The claim C7 speaks of a phone list that contains the value of the
    old phone.  Equality of phones is identity: with another object of
    the same digits as a phone of the list, the value is in the list and
    [edit_phone] raises [ValueError], removing and appending nothing. *)
Lemma edit_phone_same_value_raises :
  (∃ p, In p (phones anna) ∧ value p = value lookalike)
  ∧ snd (edit_phone lookalike replacement anna) ≠ Ok tt
  ∧ edit_phone lookalike replacement anna = (anna, Raise ValueError).
Proof.
  split; [|split].
  - exists (mkField 2 "123456789"). split; [now left|reflexivity].
  - vm_compute. discriminate.
  - reflexivity.
Qed.

(** C7, amended.  For every record whose phone list contains
    [old_phone] itself, an entry that [==] equates with it,
    [edit_phone old_phone new_phone] removes the first such entry and
    appends [new_phone]: the list [pre ++ e :: post], [e] being that first
    occurrence, becomes [pre ++ post ++ [new_phone]], so the other phones
    keep their relative order and the replacement is last.  The same
    holds of [edit_email] on the emails and [edit_note] on the notes. *)
Theorem edit_appends_replacement (r : record) (old new : Field) :
  (list_contains Field_eqb old (phones r) = true →
   ∃ pre e post,
     first_occurrence Field_eqb old (phones r) pre e post
     ∧ edit_phone old new r = (set_phones (pre ++ post ++ [new]) r, Ok tt)
     ∧ last (phones (fst (edit_phone old new r))) = Some new)
  ∧ (list_contains Field_eqb old (emails r) = true →
     ∃ pre e post,
       first_occurrence Field_eqb old (emails r) pre e post
       ∧ edit_email old new r = (set_emails (pre ++ post ++ [new]) r, Ok tt)
       ∧ last (emails (fst (edit_email old new r))) = Some new)
  ∧ (list_contains Field_eqb old (notes r) = true →
     ∃ pre e post,
       first_occurrence Field_eqb old (notes r) pre e post
       ∧ edit_note old new r = (set_notes (pre ++ post ++ [new]) r, Ok tt)
       ∧ last (notes (fst (edit_note old new r))) = Some new).
Proof.
  split; [|split]; intros Hc;
    destruct (edit_list_present old new _ Hc)
      as (pre & e & post & Hfirst & Hrm & Hlast);
    exists pre, e, post; (split; [exact Hfirst|]).
  - unfold edit_phone, remove_phone, add_phone. rewrite Hrm. simpl.
    unfold list_append in *. rewrite <- app_assoc, app_assoc. auto.
  - unfold edit_email, remove_email, add_email. rewrite Hrm. simpl.
    unfold list_append in *. rewrite <- app_assoc, app_assoc. auto.
  - unfold edit_note, remove_note, add_note. rewrite Hrm. simpl.
    unfold list_append in *. rewrite <- app_assoc, app_assoc. auto.
Qed.

Lemma edit_appends_replacement_witness :
  list_contains Field_eqb (mkField 3 "987654321") (phones anna) = true
  ∧ ∃ pre e post,
      first_occurrence Field_eqb (mkField 3 "987654321") (phones anna)
                       pre e post
      ∧ edit_phone (mkField 3 "987654321") replacement anna
        = (set_phones (pre ++ post ++ [replacement]) anna, Ok tt)
      ∧ last (phones (fst (edit_phone (mkField 3 "987654321")
                                      replacement anna)))
        = Some replacement.
Proof.
  split; [reflexivity|].
  apply (proj1 (edit_appends_replacement anna (mkField 3 "987654321")
                                         replacement)).
  reflexivity.
Defined.

(** The claim C8 asks, for a phone that is not in the list, for a return
    without an exception; [remove_phone] raises [ValueError] there. *)
Lemma remove_phone_absent_raises :
  list_contains Field_eqb stranger (phones anna) = false
  ∧ snd (remove_phone stranger anna) ≠ Ok tt.
Proof. split; [reflexivity|]. vm_compute. discriminate. Qed.

(** C8, amended.  [remove_phone] removes from the phone list the first
    entry that [==] equates with the given phone, the others keeping their
    order; when no entry is equal it raises [ValueError], and the record,
    its phone list included, is as it was. *)
Theorem remove_phone_spec (r : record) (p : Field) :
  (list_contains Field_eqb p (phones r) = true →
   ∃ pre e post,
     first_occurrence Field_eqb p (phones r) pre e post
     ∧ remove_phone p r = (set_phones (pre ++ post) r, Ok tt))
  ∧ (list_contains Field_eqb p (phones r) = false →
     remove_phone p r = (r, Raise ValueError)).
Proof.
  split; intros Hc; unfold remove_phone.
  - destruct (list_remove_present _ _ _ Hc) as (pre & e & post & H1 & ->).
    eauto.
  - now rewrite (list_remove_absent _ _ _ Hc).
Qed.

Lemma remove_phone_spec_witness :
  list_contains Field_eqb (mkField 2 "123456789") (phones anna) = true
  ∧ list_contains Field_eqb stranger (phones anna) = false
  ∧ (∃ pre e post,
       first_occurrence Field_eqb (mkField 2 "123456789") (phones anna)
                        pre e post
       ∧ remove_phone (mkField 2 "123456789") anna
         = (set_phones (pre ++ post) anna, Ok tt))
  ∧ remove_phone stranger anna = (anna, Raise ValueError).
Proof.
  split; [reflexivity|]. split; [reflexivity|]. split.
  - apply (proj1 (remove_phone_spec anna (mkField 2 "123456789"))).
    reflexivity.
  - apply (proj2 (remove_phone_spec anna stranger)). reflexivity.
Defined.

(** Equality of phones is identity: an object with the digits of a phone
    of the list is not that phone. *)
Example remove_phone_lookalike :
  remove_phone lookalike anna = (anna, Raise ValueError).
Proof. reflexivity. Qed.

(** ** Substrings *)

Lemma str_startswith_spec (p s : string) :
  str_startswith p s = true ↔ ∃ post, s = p +:+ post.
Proof.
  revert s. induction p as [|a p IH]; intros s; simpl.
  - split; eauto.
  - destruct s as [|b s].
    + split; [discriminate|]. intros [post H]. discriminate.
    + rewrite andb_true_iff, IH. split.
      * intros [Hab [post ->]]. apply Ascii.eqb_eq in Hab. subst. eauto.
      * intros [post H]. injection H as -> ->. split; eauto.
        apply Ascii.eqb_refl.
Qed.

Lemma str_in_spec (needle hay : string) :
  str_in needle hay = true ↔ substring_of needle hay.
Proof.
  unfold substring_of. split.
  - induction hay as [|c hay IH]; simpl; rewrite orb_true_iff.
    + intros [H|H]; [|discriminate].
      apply str_startswith_spec in H. destruct H as [post ->].
      exists EmptyString, post. reflexivity.
    + intros [H|H].
      * apply str_startswith_spec in H. destruct H as [post ->].
        exists EmptyString, post. reflexivity.
      * destruct (IH H) as (pre & post & ->).
        exists (String c pre), post. reflexivity.
  - intros (pre & post & ->). induction pre as [|c pre IH]; simpl.
    + assert (H : str_startswith needle (needle +:+ post) = true)
        by (apply str_startswith_spec; eauto).
      destruct (needle +:+ post); simpl; rewrite H; reflexivity.
    + rewrite IH. apply orb_true_r.
Qed.

Lemma existsb_str_in (term : string) (l : list Field) :
  existsb (fun f => str_in term (value f)) l = true
  ↔ ∃ f, In f l ∧ substring_of term (value f).
Proof.
  rewrite existsb_exists. split; intros (f & Hin & H); exists f;
    (split; [exact Hin|]); now apply str_in_spec.
Qed.

(** ** Search *)

Section SearchProperties.

Variable lower : string → string.

Lemma find_record_loop_flat_map (term : string) (records : list record) :
  find_record_loop lower term records
  = flat_map (find_record_body lower term) records.
Proof.
  unfold find_record_loop.
  assert (H : ∀ acc,
    fold_left (fun found r => found ++ find_record_body lower term r)
              records acc
    = acc ++ flat_map (find_record_body lower term) records).
  { induction records as [|r records IH]; intros acc; simpl.
    - now rewrite app_nil_r.
    - now rewrite IH, app_assoc. }
  apply (H []).
Qed.

Lemma find_record_loop_app (term : string) (l1 l2 : list record) :
  find_record_loop lower term (l1 ++ l2)
  = find_record_loop lower term l1 ++ find_record_loop lower term l2.
Proof. rewrite !find_record_loop_flat_map. apply flat_map_app. Qed.

Lemma find_record_body_matches (term : string) (r r' : record) :
  In r' (find_record_body lower term r) ↔ r' = r ∧ matches lower term r.
Proof.
  unfold find_record_body, matches.
  rewrite <- (str_in_spec (lower term)), <- !existsb_str_in.
  destruct (str_in (lower term) (lower (value (name r)))),
    (existsb (fun p => str_in term (value p)) (phones r)),
    (existsb (fun e => str_in term (value e)) (emails r)); simpl;
    intuition congruence.
Qed.

(** C9.  For every store and search term, the records that
    [find_record] returns are exactly the records of the store in which
    the term, lower-cased, occurs in the lower-cased name, or occurs as it
    is as a substring of a phone value or of an email value; a record
    that matches none of these is not returned. *)
Theorem find_record_exact (term : string) (b : AddressBook) (r : record) :
  In r (find_record lower term b)
  ↔ In r (dict_values (data b)) ∧ matches lower term r.
Proof.
  unfold find_record. rewrite find_record_loop_flat_map, in_flat_map.
  split.
  - intros (r' & Hin & Hr). apply find_record_body_matches in Hr.
    destruct Hr as [-> Hm]. auto.
  - intros [Hin Hm]. exists r. split; [exact Hin|].
    now apply find_record_body_matches.
Qed.

(** C10.  A record whose name does not hold the term, lower-cased both,
    and that holds it in a phone value and in an email value, is
    appended twice by [find_record]: once by the loop over the phones
    and once by the loop over the emails.  At its place among the results
    of the records before and after it stand two copies of it. *)
Theorem find_record_twice (term : string) (b : AddressBook) (r : record)
  (before after : list record) :
  dict_values (data b) = before ++ r :: after →
  ¬ substring_of (lower term) (lower (value (name r))) →
  (∃ phone, In phone (phones r) ∧ substring_of term (value phone)) →
  (∃ email, In email (emails r) ∧ substring_of term (value email)) →
  find_record lower term b
  = find_record_loop lower term before ++ [r; r]
    ++ find_record_loop lower term after.
Proof.
  intros Hvals Hname Hphone Hemail. unfold find_record. rewrite Hvals.
  rewrite find_record_loop_app. f_equal.
  change (r :: after) with ([r] ++ after).
  rewrite find_record_loop_app. f_equal.
  rewrite find_record_loop_flat_map. simpl. rewrite app_nil_r.
  unfold find_record_body.
  apply existsb_str_in in Hphone, Hemail. rewrite Hphone, Hemail.
  destruct (str_in (lower term) (lower (value (name r)))) eqn:Hn;
    [|reflexivity].
  apply str_in_spec in Hn. contradiction.
Qed.

End SearchProperties.

Lemma find_record_twice_witness :
  dict_values (data search_book)
  = [set_id (Some 1) anna] ++ ewa :: [set_id (Some 3) jan]
  ∧ ¬ substring_of (ascii_lower "123") (ascii_lower (value (name ewa)))
  ∧ find_record ascii_lower "123" search_book
    = find_record_loop ascii_lower "123" [set_id (Some 1) anna]
      ++ [ewa; ewa]
      ++ find_record_loop ascii_lower "123" [set_id (Some 3) jan].
Proof.
  assert (Hname :
    ¬ substring_of (ascii_lower "123") (ascii_lower (value (name ewa)))).
  { intros H. apply str_in_spec in H. vm_compute in H. discriminate. }
  split; [reflexivity|]. split; [exact Hname|].
  apply (find_record_twice ascii_lower "123" search_book ewa
           [set_id (Some 1) anna] [set_id (Some 3) jan]).
  - reflexivity.
  - exact Hname.
  - exists (mkField 11 "123456789"). split; [now left|].
    apply str_in_spec. reflexivity.
  - exists (mkField 12 "ewa123@example.com"). split; [now left|].
    apply str_in_spec. reflexivity.
Defined.

(** The search of the sample store for 123: the first record matches by
    its first phone only, the second by a phone and by an email. *)
Example find_record_sample :
  find_record ascii_lower "123" search_book
  = [set_id (Some 1) anna; ewa; ewa].
Proof. reflexivity. Qed.

(** ** The edit distance *)

Lemma min3_cases (a b c : nat) :
  min3 a b c = a ∨ min3 a b c = b ∨ min3 a b c = c.
Proof. unfold min3. lia. Qed.

Lemma min3_le (a b c : nat) :
  (min3 a b c <= a ∧ min3 a b c <= b ∧ min3 a b c <= c)%nat.
Proof. unfold min3. lia. Qed.

Lemma min3_mono (a b c a' b' c' : nat) :
  (a <= S a' → b <= S b' → c <= S c' → min3 a b c <= S (min3 a' b' c'))%nat.
Proof. unfold min3. lia. Qed.

Section EditDistanceProperties.

Context {char : Type} `{EqDecision char}.

Implicit Types (a b c : char) (s t u : list char).

Lemma lev_nil_r s : levenshtein_distance s [] = length s.
Proof. destruct s; reflexivity. Qed.

Lemma lev_cons a b s t :
  levenshtein_distance (a :: s) (b :: t)
  = min3 (S (levenshtein_distance s (b :: t)))
         (S (levenshtein_distance (a :: s) t))
         (subst_cost a b + levenshtein_distance s t).
Proof. reflexivity. Qed.

Lemma subst_cost_le a b : (subst_cost a b <= 1)%nat.
Proof. unfold subst_cost. destruct (decide (a = b)); lia. Qed.

Lemma lev_drop_l a s t :
  (levenshtein_distance (a :: s) t <= S (levenshtein_distance s t))%nat.
Proof.
  destruct t as [|b t].
  - rewrite !lev_nil_r. simpl. lia.
  - rewrite lev_cons. pose proof (min3_le
      (S (levenshtein_distance s (b :: t)))
      (S (levenshtein_distance (a :: s) t))
      (subst_cost a b + levenshtein_distance s t)). lia.
Qed.

Lemma lev_drop_r b s t :
  (levenshtein_distance s (b :: t) <= S (levenshtein_distance s t))%nat.
Proof.
  destruct s as [|a s].
  - simpl. lia.
  - rewrite lev_cons. pose proof (min3_le
      (S (levenshtein_distance s (b :: t)))
      (S (levenshtein_distance (a :: s) t))
      (subst_cost a b + levenshtein_distance s t)). lia.
Qed.

Lemma lev_refl s : levenshtein_distance s s = 0%nat.
Proof.
  induction s as [|a s IH]; [reflexivity|].
  rewrite lev_cons. unfold subst_cost. rewrite decide_True by reflexivity.
  rewrite IH. unfold min3. lia.
Qed.

(** One operation at the head of the first sequence changes the distance
    to any sequence by at most one. *)
Lemma lev_head_insert c s u :
  (levenshtein_distance s u <= S (levenshtein_distance (c :: s) u))%nat.
Proof.
  induction u as [|b u IH].
  - rewrite !lev_nil_r. simpl. lia.
  - rewrite lev_cons. pose proof (lev_drop_r b s u).
    unfold min3. lia.
Qed.

Lemma lev_head_subst c c' s u :
  (levenshtein_distance (c :: s) u
   <= S (levenshtein_distance (c' :: s) u))%nat.
Proof.
  induction u as [|b u IH].
  - rewrite !lev_nil_r. simpl. lia.
  - rewrite !lev_cons.
    pose proof (subst_cost_le c b). pose proof (subst_cost_le c' b).
    unfold min3. lia.
Qed.

(** The same under a common first character. *)
Lemma lev_under_head a (x y : list char) :
  (∀ u, (levenshtein_distance x u <= S (levenshtein_distance y u))%nat) →
  ∀ u, (levenshtein_distance (a :: x) u
        <= S (levenshtein_distance (a :: y) u))%nat.
Proof.
  intros Hxy u. induction u as [|b u IH].
  - rewrite !lev_nil_r. specialize (Hxy []).
    rewrite !lev_nil_r in Hxy. simpl. lia.
  - rewrite !lev_cons. apply min3_mono.
    + specialize (Hxy (b :: u)). lia.
    + lia.
    + specialize (Hxy u). lia.
Qed.

Lemma lev_under_prefix (pre x y : list char) :
  (∀ u, (levenshtein_distance x u <= S (levenshtein_distance y u))%nat) →
  ∀ u, (levenshtein_distance (pre ++ x) u
        <= S (levenshtein_distance (pre ++ y) u))%nat.
Proof.
  intros Hxy. induction pre as [|a pre IH]; simpl; [exact Hxy|].
  now apply lev_under_head.
Qed.

Lemma lev_edit_step s t :
  edit_step s t →
  ∀ u, (levenshtein_distance s u <= S (levenshtein_distance t u))%nat.
Proof.
  intros [pre c post|pre c post|pre c c' post]; apply lev_under_prefix.
  - apply lev_head_insert.
  - apply lev_drop_l.
  - apply lev_head_subst.
Qed.

(** No sequence of operations is shorter than the distance. *)
Lemma lev_lower_bound (n : nat) s t :
  edits n s t → (levenshtein_distance s t <= n)%nat.
Proof.
  induction 1 as [s|n s t u Hstep _ IH].
  - rewrite lev_refl. lia.
  - pose proof (lev_edit_step s t Hstep u). lia.
Qed.

Lemma edit_step_cons a s t :
  edit_step s t → edit_step (a :: s) (a :: t).
Proof.
  intros [pre c post|pre c post|pre c c' post].
  - apply (edit_insert (a :: pre)).
  - apply (edit_delete (a :: pre)).
  - apply (edit_subst (a :: pre)).
Qed.

Lemma edits_cons a (n : nat) s t :
  edits n s t → edits n (a :: s) (a :: t).
Proof.
  induction 1 as [s|n s t u Hstep _ IH]; [constructor|].
  eapply edits_step; [apply edit_step_cons, Hstep|exact IH].
Qed.

Lemma edits_insert_all t : edits (length t) [] t.
Proof.
  induction t as [|b t IH]; simpl; [constructor|].
  eapply edits_step.
  - apply (edit_insert [] b []).
  - simpl. now apply edits_cons.
Qed.

Lemma edits_delete_all s : edits (length s) s [].
Proof.
  induction s as [|a s IH]; simpl; [constructor|].
  eapply edits_step; [|exact IH].
  apply (edit_delete [] a s).
Qed.

(** A sequence of operations as long as the distance exists. *)
Lemma lev_upper_bound s t : edits (levenshtein_distance s t) s t.
Proof.
  revert t. induction s as [|a s IHs]; intros t.
  - apply edits_insert_all.
  - induction t as [|b t IHt].
    + rewrite lev_nil_r. apply edits_delete_all.
    + rewrite lev_cons.
      destruct (min3_cases (S (levenshtein_distance s (b :: t)))
                           (S (levenshtein_distance (a :: s) t))
                           (subst_cost a b + levenshtein_distance s t))
        as [->|[->| ->]].
      * eapply edits_step; [|apply IHs].
        apply (edit_delete [] a s).
      * eapply edits_step.
        -- apply (edit_insert [] b (a :: s)).
        -- simpl. apply edits_cons, IHt.
      * unfold subst_cost. destruct (decide (a = b)) as [->|Hne]; simpl.
        -- apply edits_cons, IHs.
        -- eapply edits_step.
           ++ apply (edit_subst [] a b s).
           ++ simpl. apply edits_cons, IHs.
Qed.

Lemma lev_zero_eq s t : levenshtein_distance s t = 0%nat → s = t.
Proof.
  intros H0. pose proof (lev_upper_bound s t) as He. rewrite H0 in He.
  now inversion He.
Qed.

End EditDistanceProperties.

(** ** The fuzzy suggestion *)

Lemma stable_argmin_head {A : Type} (key : A → nat) (x c : A) (l : list A) :
  stable_argmin key (x :: l) c → (key c <= key x)%nat.
Proof.
  intros (pre & post & Heq & Hpre & Hpost).
  destruct pre as [|y pre]; simpl in Heq; injection Heq as -> _; [lia|].
  specialize (Hpre y (or_introl eq_refl)). lia.
Qed.

Lemma min_loop_stable {A : Type} (key : A → nat) (l : list A) (best : A) :
  stable_argmin key (best :: l) (min_loop key best l).
Proof.
  revert best. induction l as [|x l IH]; intros best; simpl.
  - exists [], []. simpl. intuition.
  - destruct (Nat.ltb_spec (key x) (key best)) as [Hlt|Hge].
    + pose proof (stable_argmin_head key _ _ _ (IH x)) as Hle.
      destruct (IH x) as (pre & post & Heq & Hpre & Hpost).
      exists (best :: pre), post. simpl. rewrite Heq.
      split; [reflexivity|]. split; [|exact Hpost].
      intros y [<-|Hy]; [lia|auto].
    + specialize (IH best). remember (min_loop key best l) as c eqn:Hc.
      clear Hc. destruct IH as (pre & post & Heq & Hpre & Hpost).
      destruct pre as [|y pre]; simpl in Heq.
      * injection Heq as <- <-. exists [], (x :: l). simpl.
        split; [reflexivity|]. split; [intros y []|].
        intros y [<-|Hy]; [lia|auto].
      * injection Heq as <- ->.
        exists (best :: x :: pre), post. simpl.
        split; [reflexivity|]. split; [|exact Hpost].
        pose proof (Hpre best (or_introl eq_refl)).
        intros z [<-|[<-|Hz]]; [lia|lia|]. apply Hpre. now right.
Qed.

Lemma stable_argmin_unique {A : Type} (key : A → nat) (l : list A)
  (c c' : A) (pre pre' post post' : list A) :
  l = pre ++ c :: post → (∀ y, In y pre → (key c < key y)%nat) →
  (∀ y, In y post → (key c <= key y)%nat) →
  l = pre' ++ c' :: post' → (∀ y, In y pre' → (key c' < key y)%nat) →
  (∀ y, In y post' → (key c' <= key y)%nat) →
  pre = pre' ∧ c = c' ∧ post = post'.
Proof.
  intros -> Hpre Hpost. revert pre' Hpre.
  induction pre as [|y pre IH]; intros pre' Hpre Heq Hpre' Hpost'.
  - destruct pre' as [|y' pre']; simpl in Heq.
    + injection Heq as -> ->. auto.
    + injection Heq as H1 H2. subst y' post.
      pose proof (Hpre' c (or_introl eq_refl)).
      assert (key c <= key c')%nat by (apply Hpost, in_elt). lia.
  - destruct pre' as [|y' pre']; simpl in Heq.
    + injection Heq as H1 H2. subst y post'.
      pose proof (Hpre c' (or_introl eq_refl)).
      assert (key c' <= key c)%nat by (apply Hpost', in_elt). lia.
    + injection Heq as H1 Heq. subst y'.
      destruct (IH pre' (fun z Hz => Hpre z (or_intror Hz)) Heq
                   (fun z Hz => Hpre' z (or_intror Hz)) Hpost')
        as (-> & -> & ->).
      auto.
Qed.

(** C4.  For every text typed and every non-empty list of
    [(id, candidate)] pairs, the texts being sequences of characters of
    any kind, code points for a Python [str], [suggest_correction_name]
    returns the name of the candidate whose name is at the least edit
    distance from the text, the first such candidate in the order of the
    list (every candidate before it is strictly farther, none after it is
    nearer); that candidate is unique.  On an empty list it raises
    [ValueError] and returns no default.  The distance is the least number
    of single-character insertions, deletions and substitutions that turn
    one text into the other: a sequence of that length exists and none is
    shorter. *)
Theorem suggest_correction_name_spec {char rec : Type} `{EqDecision char}
  (name_value : rec → list char) (name_to_edit : list char) :
  (∀ c candidates,
     ∃ best,
       stable_argmin (distance_to name_value name_to_edit)
                     (c :: candidates) best
       ∧ (∀ other,
            stable_argmin (distance_to name_value name_to_edit)
                          (c :: candidates) other
            → other = best)
       ∧ suggest_correction_name_on name_value name_to_edit (c :: candidates)
         = Ok (name_value (snd best)))
  ∧ suggest_correction_name_on name_value name_to_edit [] = Raise ValueError
  ∧ (∀ s t : list char,
       edits (levenshtein_distance s t) s t
       ∧ ∀ n, edits n s t → (levenshtein_distance s t <= n)%nat).
Proof.
  split; [|split].
  - intros c candidates.
    exists (min_loop (distance_to name_value name_to_edit) c candidates).
    pose proof (min_loop_stable (distance_to name_value name_to_edit)
                                candidates c) as Hbest.
    split; [exact Hbest|]. split; [|reflexivity].
    intros other (pre & post & Heq & Hpre & Hpost).
    destruct Hbest as (pre' & post' & Heq' & Hpre' & Hpost').
    now destruct (stable_argmin_unique _ _ _ _ _ _ _ _
                    Heq Hpre Hpost Heq' Hpre' Hpost') as (_ & -> & _).
  - reflexivity.
  - intros s t. split; [apply lev_upper_bound|].
    intros n. apply lev_lower_bound.
Qed.

Lemma suggest_correction_name_spec_witness :
  edits 1 [322%N] [108%N]
  ∧ (levenshtein_distance [322%N] [108%N] <= 1)%nat
  ∧ suggest_correction_name_on code_points_of_name [322%N] []
    = Raise ValueError.
Proof.
  assert (H : edits 1 [322%N] [108%N]).
  { eapply edits_step; [apply (edit_subst [] 322%N 108%N [])|constructor]. }
  split; [exact H|]. split.
  - exact (proj2 (proj2 (proj2 (suggest_correction_name_spec
                                  code_points_of_name [322%N]))
                    [322%N] [108%N]) 1%nat H).
  - exact (proj1 (proj2 (suggest_correction_name_spec
                           code_points_of_name [322%N]))).
Defined.

(** On code points: for the one-letter text U+0142, against the names
    "ab" and "l", the nearer name is "l", one substitution away. *)
Example suggest_correction_name_code_points :
  suggest_correction_name_on code_points_of_name [322%N]
    [(1, [97; 98]%N); (2, [108]%N)]
  = Ok [108%N].
Proof. reflexivity. Qed.

(** [suggest_correction_name] on the records of the book is the same
    function, at the characters of their names. *)
Lemma suggest_correction_name_on_records (name_to_edit : string)
  (matching_records : list (Z * record)) :
  suggest_correction_name_on (fun r => chars (value (name r)))
                             (chars name_to_edit) matching_records
  = match suggest_correction_name name_to_edit matching_records with
    | Ok s => Ok (chars s)
    | Raise e => Raise e
    end.
Proof. destruct matching_records; reflexivity. Qed.

(** The suggestion of the sample in the specification. *)
Example suggest_correction_name_sample :
  suggest_correction_name "Ana Kowalska"
    [(1, set_id (Some 1) anna); (3, set_id (Some 3) jan)]
  = Ok "Anna Kowalska".
Proof. reflexivity. Qed.

(** Two candidates at the same distance: the first one is suggested. *)
Example suggest_correction_name_tie :
  suggest_correction_name "Jan"
    [(1, new_record (mkField 20 "Jane") None);
     (2, new_record (mkField 21 "Jana") None)]
  = Ok "Jane".
Proof. reflexivity. Qed.

(** ** Days to the next birthday *)

(** The days of a difference of datetimes are the difference of their
    instants in whole days, rounded down. *)
Lemma sub_days_instant (a b : datetime) :
  sub_days a b = (instant a - instant b) / MICROSECONDS_PER_DAY.
Proof.
  unfold sub_days, timedelta_days, instant, MICROSECONDS_PER_DAY.
  generalize (toordinal a) (toordinal b) (seconds_of_day a) (seconds_of_day b)
             (dt_microsecond a) (dt_microsecond b).
  intros d1 d2 s1 s2 u1 u2.
  Z.div_mod_to_equations. lia.
Qed.

Ltac month_cases m :=
  let H := fresh "Hm" in
  assert (H : m = 1 ∨ m = 2 ∨ m = 3 ∨ m = 4 ∨ m = 5 ∨ m = 6 ∨ m = 7
              ∨ m = 8 ∨ m = 9 ∨ m = 10 ∨ m = 11 ∨ m = 12) by lia;
  repeat (destruct H as [H|H]; [subst m|]); [..|subst m].

Ltac bool_hyps :=
  repeat match goal with
    | H : _ && _ = true |- _ => apply andb_true_iff in H; destruct H
    | H : (_ <=? _) = true |- _ => apply Z.leb_le in H
    end.

(** Within a year the day of the year orders dates as month and day do. *)
Lemma month_day_order (y m d m' d' : Z) :
  1 ≤ m ≤ 12 → 1 ≤ d ≤ days_in_month y m →
  1 ≤ m' ≤ 12 → 1 ≤ d' ≤ days_in_month y m' →
  (m < m' → days_before_month y m + d < days_before_month y m' + d')
  ∧ (m = m' → (days_before_month y m + d) - (days_before_month y m' + d')
               = d - d').
Proof.
  intros Hm Hd Hm' Hd'. split; [|intros ->; lia].
  revert Hd Hd'. unfold days_before_month, days_in_month.
  destruct (is_leap y); month_cases m; month_cases m'; simpl; lia.
Qed.

(** The comparison of the source, on tuples, is the comparison of
    instants. *)
Lemma dt_gt_same_year (today : datetime) (b : date) :
  valid_datetime today = true →
  check_date_fields (dt_year today) (month b) (day b) = true →
  dt_gt today (at_midnight (dt_year today) b) = true
  ↔ instant (at_midnight (dt_year today) b) < instant today.
Proof.
  unfold valid_datetime, check_date_fields, check_time_fields.
  intros Hv Hb. bool_hyps.
  pose proof (month_day_order (dt_year today) (month b) (day b)
                (dt_month today) (dt_day today)) as [K1 K2]; try lia.
  pose proof (month_day_order (dt_year today) (dt_month today) (dt_day today)
                (month b) (day b)) as [K3 _]; try lia.
  unfold dt_gt, dt_tuple, at_midnight, instant, toordinal, ymd2ord,
    seconds_of_day.
  cbn [tuple_lt dt_year dt_month dt_day dt_hour dt_minute dt_second
       dt_microsecond].
  rewrite andb_false_r, orb_false_r.
  repeat (rewrite orb_true_iff || rewrite andb_true_iff
          || rewrite Z.ltb_lt || rewrite Z.eqb_eq).
  generalize dependent (days_before_year (dt_year today)). intros dby.
  generalize dependent (days_before_month (dt_year today) (month b)).
  generalize dependent (days_before_month (dt_year today) (dt_month today)).
  intros dbm1 dbm2 K1 K2 K3. lia.
Qed.

Lemma replace_year_midnight (y y0 : Z) (b : date) :
  check_date_fields y (month b) (day b) = true →
  replace_year y (at_midnight y0 b) = Ok (at_midnight y b).
Proof. intros H. unfold replace_year, at_midnight. simpl. now rewrite H. Qed.

(** The claim C6 gives 364 for the birthday 2000-01-01 and now =
    2024-01-02.  At that date, 00:00:00, the next occurrence 2025-01-01 is
    365 days away, 2024 being a leap year, and [days_to_birthday] returns
    365. *)
Lemma days_to_birthday_midnight_365 :
  birthday anna = Some (mkDate 2000 1 1)
  ∧ days_to_birthday (mkDT 2024 1 2 0 0 0 0) anna = Ok (Days 365)
  ∧ days_to_birthday (mkDT 2024 1 2 0 0 0 0) anna ≠ Ok (Days 364).
Proof.
  split; [reflexivity|]. split; [reflexivity|]. vm_compute. discriminate.
Qed.

(** C6, amended.  For a record with a birthday set and a reference time
    [today], when the month and day of the birthday exist as a date in the
    current year, and in the next year when the candidate is advanced,
    [days_to_birthday] takes as candidate that month and day of the current
    year at 00:00, advances it to the next year exactly when the candidate
    is strictly before [today], and returns the difference candidate minus
    [today] in whole days, rounded down.  For the birthday 2000-01-01 it
    returns 365 when [today] is 2024-01-02 at 00:00:00 and 364 at every
    later time of 2024-01-02. *)
Theorem days_to_birthday_spec :
  (∀ today r b,
     birthday r = Some b →
     valid_datetime today = true →
     check_date_fields (dt_year today) (month b) (day b) = true →
     check_date_fields (dt_year (next_occurrence today b)) (month b) (day b)
     = true →
     days_to_birthday today r
     = Ok (Days ((instant (next_occurrence today b) - instant today)
                 / MICROSECONDS_PER_DAY)))
  ∧ (∀ r h mi s us,
       birthday r = Some (mkDate 2000 1 1) →
       check_time_fields h mi s us = true →
       days_to_birthday (mkDT 2024 1 2 h mi s us) r
       = Ok (Days (if (h =? 0) && (mi =? 0) && (s =? 0) && (us =? 0)
                   then 365 else 364))).
Proof.
  assert (Hgeneral : ∀ today r b,
    birthday r = Some b →
    valid_datetime today = true →
    check_date_fields (dt_year today) (month b) (day b) = true →
    check_date_fields (dt_year (next_occurrence today b)) (month b) (day b)
    = true →
    days_to_birthday today r
    = Ok (Days ((instant (next_occurrence today b) - instant today)
                / MICROSECONDS_PER_DAY))).
  { intros today r b Hb Hv Hthis Hnext. unfold days_to_birthday. rewrite Hb.
    cbv zeta. change (bday_of b) with (at_midnight (year b) b).
    rewrite (replace_year_midnight _ _ _ Hthis). cbn [mbind result_bind].
    pose proof (dt_gt_same_year today b Hv Hthis) as Hgt.
    unfold next_occurrence in *.
    destruct (Z.ltb_spec (instant (at_midnight (dt_year today) b))
                         (instant today)) as [Hlt|Hge].
    - apply Hgt in Hlt. rewrite Hlt.
      rewrite (replace_year_midnight _ _ _ Hnext). cbn [mbind result_bind].
      now rewrite sub_days_instant.
    - destruct (dt_gt today (at_midnight (dt_year today) b)) eqn:Hd.
      + assert (instant (at_midnight (dt_year today) b) < instant today)
          by now apply Hgt.
        lia.
      + cbn [mbind result_bind]. now rewrite sub_days_instant. }
  split; [exact Hgeneral|].
  intros r h mi s us Hb Ht.
  assert (Hlt : instant (at_midnight 2024 (mkDate 2000 1 1))
                < instant (mkDT 2024 1 2 h mi s us)).
  { unfold check_time_fields in Ht. bool_hyps.
    unfold instant, at_midnight, toordinal, seconds_of_day.
    cbn [dt_year dt_month dt_day dt_hour dt_minute dt_second dt_microsecond
         year month day].
    change (ymd2ord 2024 1 1) with 738886.
    change (ymd2ord 2024 1 2) with 738887. lia. }
  rewrite (Hgeneral _ r (mkDate 2000 1 1) Hb).
  - unfold next_occurrence. cbn [dt_year].
    destruct (Z.ltb_spec (instant (at_midnight 2024 (mkDate 2000 1 1)))
                         (instant (mkDT 2024 1 2 h mi s us))); [|lia].
    do 2 f_equal. clear Hlt.
    unfold check_time_fields in Ht. bool_hyps.
    unfold instant, at_midnight, toordinal, seconds_of_day,
      MICROSECONDS_PER_DAY.
    cbn [dt_year dt_month dt_day dt_hour dt_minute dt_second dt_microsecond
         year month day].
    change (ymd2ord (2024 + 1) 1 1) with 739252.
    change (ymd2ord 2024 1 2) with 738887.
    destruct (Z.eqb_spec h 0), (Z.eqb_spec mi 0), (Z.eqb_spec s 0),
      (Z.eqb_spec us 0); cbn [andb]; subst;
      Z.div_mod_to_equations; lia.
  - unfold valid_datetime. cbn [dt_year dt_month dt_day dt_hour dt_minute
      dt_second dt_microsecond]. now rewrite Ht.
  - reflexivity.
  - unfold next_occurrence. cbn [dt_year].
    destruct (instant _ <? instant _); reflexivity.
Qed.

Lemma days_to_birthday_spec_witness :
  birthday anna = Some (mkDate 2000 1 1)
  ∧ valid_datetime (mkDT 2024 6 15 12 30 0 0) = true
  ∧ check_time_fields 12 30 0 0 = true
  ∧ days_to_birthday (mkDT 2024 6 15 12 30 0 0) anna
    = Ok (Days ((instant (next_occurrence (mkDT 2024 6 15 12 30 0 0)
                                          (mkDate 2000 1 1))
                 - instant (mkDT 2024 6 15 12 30 0 0))
                / MICROSECONDS_PER_DAY))
  ∧ days_to_birthday (mkDT 2024 1 2 12 30 0 0) anna = Ok (Days 364).
Proof.
  split; [reflexivity|]. split; [reflexivity|]. split; [reflexivity|]. split.
  - apply (proj1 days_to_birthday_spec); reflexivity.
  - apply (proj2 days_to_birthday_spec anna 12 30 0 0); reflexivity.
Defined.

(** A birthday on 29 February has no date in a year that is not a leap
    year: [replace] raises [ValueError]. *)
Example days_to_birthday_leap_day :
  days_to_birthday (mkDT 2023 6 15 12 0 0 0)
                   (new_record (mkField 30 "Ola") (Some (mkDate 2000 2 29)))
  = Raise ValueError.
Proof. reflexivity. Qed.

Example days_to_birthday_no_birthday :
  days_to_birthday (mkDT 2024 1 2 0 0 0 0) jan = Ok NoBirthday.
Proof. reflexivity. Qed.

(** * Further properties *)

(** ** The store beyond the allocator *)

Lemma dict_keys_set_fresh (k : Z) (v : record) (d : pydict) :
  ¬ In k (dict_keys d) → dict_keys (dict_set k v d) = dict_keys d ++ [k].
Proof.
  induction d as [|[k' v'] d IH]; simpl; [reflexivity|].
  intros Hnin. destruct (Z.eqb_spec k' k) as [->|Hne].
  - exfalso. apply Hnin. now left.
  - simpl. rewrite IH; [reflexivity|]. intros Hin. apply Hnin. now right.
Qed.

Lemma dict_keys_del_filter (k : Z) (d : pydict) :
  dict_keys (dict_del k d)
  = List.filter (fun j => negb (j =? k)) (dict_keys d).
Proof.
  induction d as [|[k' v'] d IH]; simpl; [reflexivity|].
  destruct (k' =? k); simpl; now rewrite <- IH.
Qed.

Lemma filter_key_absent (k : Z) (l : list Z) :
  ¬ In k l → List.filter (fun j => negb (j =? k)) l = l.
Proof.
  induction l as [|j l IH]; simpl; [reflexivity|].
  intros Hnin. destruct (Z.eqb_spec j k) as [->|Hne]; simpl.
  - exfalso. apply Hnin. now left.
  - rewrite IH; [reflexivity|]. intros Hin. apply Hnin. now right.
Qed.

(** The identifier [add_record] assigns in a store whose pool and live
    identifiers are disjoint is not live: the key is new. *)
Lemma add_record_new_key (r : record) (b : AddressBook) :
  disjoint_inv b →
  ∃ m, assigned_id r b = Some m
       ∧ (m ∉ live_ids b)
       ∧ data (book_after_add r b) = dict_set m (set_id (Some m) r) (data b)
       ∧ {[m]} ∪ free_ids (book_after_add r b) = {[m]} ∪ free_ids b.
Proof.
  intros Hdis. unfold assigned_id, book_after_add.
  destruct (decide (free_ids b = ∅)) as [He|Hne].
  - rewrite (add_record_forward r b He). cbv zeta. simpl.
    eexists. split; [reflexivity|].
    pose proof (advance_exits (data b) (free_ids b) (next_id b)) as Hc.
    unfold collides in Hc. apply orb_false_iff in Hc. destruct Hc as [Hc _].
    apply dict_contains_false in Hc.
    split; [now rewrite elem_of_live_ids|]. auto.
  - destruct (add_record_pool r b Hne) as (m & [Hm _] & ->). simpl.
    exists m. split; [reflexivity|].
    assert (Hnl : m ∉ live_ids b) by (unfold disjoint_inv in Hdis; set_solver).
    split; [exact Hnl|]. split; [reflexivity|].
    apply set_eq. intros k. destruct (decide (k = m)); set_solver.
Qed.

Lemma range_inv_counter (b : AddressBook) : range_inv b → counter_inv b.
Proof. intros [_ H] k Hk. apply H in Hk. lia. Qed.

Lemma add_record_store_inv (r : record) (b : AddressBook) :
  store_inv b → store_inv (book_after_add r b).
Proof.
  intros [Hdis [H1 Hrange]].
  split; [now apply add_record_disjoint|].
  pose proof (counter_inv_no_collision b
                (range_inv_counter b (conj H1 Hrange))) as Hc.
  pose proof (advance_stays (advance_fuel (data b) (free_ids b)) _ _ _ Hc)
    as Hadv.
  unfold book_after_add.
  destruct (decide (free_ids b = ∅)) as [He|Hne].
  - rewrite (add_record_forward r b He). cbv zeta. rewrite Hadv.
    split; [simpl; lia|]. simpl. intros k.
    rewrite live_ids_set. fold (live_ids b).
    specialize (Hrange k). rewrite He in *.
    rewrite !elem_of_union, elem_of_singleton in *.
    split.
    + intros [Hk|[->|Hk]]; [set_solver|lia|].
      assert (1 ≤ k < next_id b) by (apply Hrange; now right). lia.
    + intros Hk. destruct (decide (k = next_id b)) as [->|Hne]; [auto|].
      assert (1 ≤ k < next_id b) as Hk' by lia.
      apply Hrange in Hk'. destruct Hk' as [Hk'|Hk']; [set_solver|auto].
  - destruct (add_record_pool r b Hne) as (m & [Hm Hmin] & ->).
    rewrite Hadv. split; [exact H1|]. simpl. intros k. rewrite <- Hrange.
    rewrite live_ids_set. fold (live_ids b).
    destruct (decide (k = m)) as [->|Hkm]; set_solver.
Qed.

Lemma delete_store_inv (p : option Z) (b : AddressBook) :
  store_inv b → store_inv (fst (delete_record_by_id p b)).
Proof.
  intros [Hdis [H1 Hrange]].
  split; [now apply delete_disjoint|].
  destruct p as [i|]; simpl; [|now split].
  destruct (dict_contains i (data b)) eqn:Hc; simpl; [|now split].
  apply dict_contains_keys, elem_of_live_ids in Hc.
  split; [exact H1|]. simpl. intros k. rewrite <- Hrange.
  rewrite live_ids_del. fold (live_ids b).
  destruct (decide (k = i)) as [->|Hki]; set_solver.
Qed.

(** [delete_record] leaves the store as it was or as
    [delete_record_by_id] leaves it. *)
Lemma delete_record_store (lower : string → string) (clock : nat → datetime)
  (nm : string) (p : option Z) (b : AddressBook) :
  fst (delete_record lower clock nm p b) = b
  ∨ fst (delete_record lower clock nm p b) = fst (delete_record_by_id p b).
Proof.
  unfold delete_record, delete_record_by_id.
  destruct (find_records_by_name lower nm b); [now left|].
  destruct (print_records clock 0 _); [|now left].
  destruct p as [i|]; [|now left].
  destruct (dict_contains i (data b)); [now right|now left].
Qed.

Lemma fresh_store_inv : store_inv fresh.
Proof.
  split; [unfold disjoint_inv; set_solver|].
  split; [simpl; lia|]. intros k. simpl. unfold live_ids. simpl.
  split; [set_solver|lia].
Qed.

Lemma reachable_store_inv (lower : string → string) (b : AddressBook) :
  reachable lower b → store_inv b.
Proof.
  induction 1 as [|r b _ IH|p b _ IH|clock nm p b _ IH].
  - apply fresh_store_inv.
  - now apply add_record_store_inv.
  - now apply delete_store_inv.
  - destruct (delete_record_store lower clock nm p b) as [-> | ->];
      [exact IH|now apply delete_store_inv].
Qed.

Lemma run_reachable (lower : string → string) (ops : list Op) :
  reachable lower (run ops).
Proof.
  unfold run. assert (H : reachable lower fresh) by constructor.
  revert H. generalize fresh as b.
  induction ops as [|o ops IH]; intros b Hb; simpl; [exact Hb|].
  apply IH. destruct o as [r|p]; simpl; now constructor.
Qed.

(** X1.  In every store made from the fresh one by [add_record],
    [delete_record_by_id] and [delete_record], the identifiers in use are
    exactly 1, ..., [next_id - 1]: each of them is live or free, never
    both, and no other integer is live or free. *)
Theorem reachable_ids_fill_range (lower : string → string)
  (b : AddressBook) :
  reachable lower b →
  1 ≤ next_id b
  ∧ free_ids b ∩ live_ids b = ∅
  ∧ ∀ k, k ∈ free_ids b ∪ live_ids b ↔ 1 ≤ k < next_id b.
Proof.
  intros Hr. destruct (reachable_store_inv lower b Hr)
    as (Hdis & [H1 Hrange]).
  auto.
Qed.

Lemma reachable_ids_fill_range_witness :
  reachable ascii_lower three_then_delete
  ∧ 1 ≤ next_id three_then_delete
  ∧ free_ids three_then_delete ∩ live_ids three_then_delete = ∅
  ∧ ∀ k, k ∈ free_ids three_then_delete ∪ live_ids three_then_delete
         ↔ 1 ≤ k < next_id three_then_delete.
Proof.
  assert (Hr : reachable ascii_lower three_then_delete)
    by apply run_reachable.
  split; [exact Hr|].
  exact (reachable_ids_fill_range ascii_lower three_then_delete Hr).
Defined.

(** X3.  When the pool and the live identifiers are disjoint,
    [add_record] takes no key that is in use: the identifier it assigns
    was not live, the keys of the mapping stay in their order and the new
    key comes last, so the mapping has one entry more, and the record just
    added is stored under it with the identifier stamped. *)
Theorem add_record_takes_new_key (r : record) (b : AddressBook) :
  free_ids b ∩ live_ids b = ∅ →
  ∃ m, assigned_id r b = Some m
       ∧ (m ∉ live_ids b)
       ∧ dict_keys (data (book_after_add r b)) = dict_keys (data b) ++ [m]
       ∧ length (data (book_after_add r b)) = S (length (data b))
       ∧ dict_get m (data (book_after_add r b)) = Some (set_id (Some m) r).
Proof.
  intros Hdis.
  destruct (add_record_new_key r b Hdis) as (m & Hid & Hnl & Hd & _).
  exists m. split; [exact Hid|]. split; [exact Hnl|].
  assert (Hkeys : dict_keys (data (book_after_add r b))
                  = dict_keys (data b) ++ [m]).
  { rewrite Hd. apply dict_keys_set_fresh. now rewrite <- elem_of_live_ids. }
  split; [exact Hkeys|]. split.
  - apply (f_equal (@length Z)) in Hkeys. unfold dict_keys in Hkeys.
    rewrite length_app, !length_map in Hkeys. simpl in Hkeys. lia.
  - rewrite Hd. apply dict_get_set_eq.
Qed.

Lemma add_record_takes_new_key_witness :
  free_ids sample_book ∩ live_ids sample_book = ∅
  ∧ ∃ m, assigned_id anna sample_book = Some m
         ∧ (m ∉ live_ids sample_book)
         ∧ dict_keys (data (book_after_add anna sample_book))
           = dict_keys (data sample_book) ++ [m]
         ∧ length (data (book_after_add anna sample_book))
           = S (length (data sample_book))
         ∧ dict_get m (data (book_after_add anna sample_book))
           = Some (set_id (Some m) anna).
Proof.
  assert (Hdis : free_ids sample_book ∩ live_ids sample_book = ∅).
  { apply set_eq. intros k. split; [|set_solver].
    unfold sample_book, live_ids. simpl. set_solver. }
  split; [exact Hdis|].
  exact (add_record_takes_new_key anna sample_book Hdis).
Defined.

(** Without that, a key in use can be taken: in a store where 2 is live
    and free the new record goes under 2 and no entry is added. *)
Example add_record_overwrites_when_overlapping :
  dict_keys (data overlapping_book) = [1; 2]
  ∧ assigned_id anna overlapping_book = Some 2
  ∧ dict_keys (data (book_after_add anna overlapping_book)) = [1; 2].
Proof. vm_compute. auto. Qed.

(** X4.  Adding a record and then deleting the identifier it was given
    restores the keys of the mapping, in their order, and leaves that
    identifier in the pool; the deletion reports success. *)
Theorem add_then_delete_restores_keys (r : record) (b : AddressBook) :
  free_ids b ∩ live_ids b = ∅ →
  ∃ m, assigned_id r b = Some m
       ∧ snd (delete_record_by_id (Some m) (book_after_add r b))
         = MsgDeleted m
       ∧ dict_keys (data (fst (delete_record_by_id (Some m)
                                 (book_after_add r b))))
         = dict_keys (data b)
       ∧ free_ids (fst (delete_record_by_id (Some m) (book_after_add r b)))
         = {[m]} ∪ free_ids b
       ∧ next_id (fst (delete_record_by_id (Some m) (book_after_add r b)))
         = next_id (book_after_add r b).
Proof.
  intros Hdis.
  destruct (add_record_new_key r b Hdis) as (m & Hid & Hnl & Hd & Hfree).
  exists m. split; [exact Hid|].
  assert (Hnin : ¬ In m (dict_keys (data b)))
    by now rewrite <- elem_of_live_ids.
  assert (Hkeys : dict_keys (data (book_after_add r b))
                  = dict_keys (data b) ++ [m]).
  { rewrite Hd. now apply dict_keys_set_fresh. }
  assert (Hc : dict_contains m (data (book_after_add r b)) = true).
  { apply dict_contains_keys. rewrite Hkeys, in_app_iff. simpl. auto. }
  unfold delete_record_by_id. rewrite Hc. simpl.
  split; [reflexivity|]. split; [|split; [exact Hfree|reflexivity]].
  rewrite dict_keys_del_filter, Hkeys, List.filter_app.
  rewrite (filter_key_absent m _ Hnin). simpl.
  rewrite Z.eqb_refl. simpl. apply app_nil_r.
Qed.

Lemma add_then_delete_restores_keys_witness :
  free_ids sample_book ∩ live_ids sample_book = ∅
  ∧ ∃ m, assigned_id anna sample_book = Some m
         ∧ snd (delete_record_by_id (Some m) (book_after_add anna sample_book))
           = MsgDeleted m
         ∧ dict_keys (data (fst (delete_record_by_id (Some m)
                                   (book_after_add anna sample_book))))
           = dict_keys (data sample_book)
         ∧ free_ids (fst (delete_record_by_id (Some m)
                            (book_after_add anna sample_book)))
           = {[m]} ∪ free_ids sample_book
         ∧ next_id (fst (delete_record_by_id (Some m)
                           (book_after_add anna sample_book)))
           = next_id (book_after_add anna sample_book).
Proof.
  assert (Hdis : free_ids sample_book ∩ live_ids sample_book = ∅).
  { apply set_eq. intros k. split; [|set_solver].
    unfold sample_book, live_ids. simpl. set_solver. }
  split; [exact Hdis|].
  exact (add_then_delete_restores_keys anna sample_book Hdis).
Defined.

(** X5.  Deleting an identifier a second time finds nothing: the second
    [delete_record_by_id] reports "not found" and returns the store the
    first one left, whatever the identifier and the store. *)
Theorem delete_record_by_id_twice (i : Z) (b : AddressBook) :
  delete_record_by_id (Some i) (fst (delete_record_by_id (Some i) b))
  = (fst (delete_record_by_id (Some i) b), MsgNotFound).
Proof.
  assert (Hgone : dict_contains i (data (fst (delete_record_by_id (Some i) b)))
                  = false).
  { apply dict_contains_false. simpl.
    destruct (dict_contains i (data b)) eqn:Hc; simpl.
    - rewrite dict_keys_del. tauto.
    - now apply dict_contains_false. }
  unfold delete_record_by_id at 1. now rewrite Hgone.
Qed.

(** ** Deleting by name *)

Lemma print_record_raises (today : datetime) (r : record) :
  days_to_birthday today r = Raise ValueError →
  print_record today r = Raise ValueError.
Proof.
  intros Hr. unfold print_record. destruct (birthday r) eqn:Hb.
  - now rewrite Hr.
  - unfold days_to_birthday in Hr. rewrite Hb in Hr. discriminate.
Qed.

Lemma print_record_ok (today : datetime) (r : record) :
  days_to_birthday today r ≠ Raise ValueError →
  print_record today r = Ok tt.
Proof.
  intros Hr. unfold print_record. destruct (birthday r); [|reflexivity].
  destruct (days_to_birthday today r) as [a|[]]; [reflexivity|contradiction].
Qed.

(** The loop over the matches returns when no record of them makes
    [days_to_birthday] raise. *)
Lemma print_records_ok (clock : nat → datetime) (i : nat)
  (l : list (Z * record)) :
  (∀ j k r, nth_error l j = Some (k, r) →
            days_to_birthday (clock (i + j)%nat) r ≠ Raise ValueError) →
  print_records clock i l = Ok tt.
Proof.
  revert i. induction l as [|[k r] l IH]; intros i Hall; simpl;
    [reflexivity|].
  rewrite print_record_ok.
  - cbn [mbind result_bind]. apply IH. intros j k' r' Hj.
    replace (S i + j)%nat with (i + S j)%nat by lia.
    now apply (Hall (S j) k' r').
  - specialize (Hall 0%nat k r eq_refl).
    now rewrite Nat.add_0_r in Hall.
Qed.

(** It raises as soon as one of them does. *)
Lemma print_records_raises (clock : nat → datetime) (i : nat)
  (l : list (Z * record)) (j : nat) (k : Z) (r : record) :
  nth_error l j = Some (k, r) →
  days_to_birthday (clock (i + j)%nat) r = Raise ValueError →
  print_records clock i l = Raise ValueError.
Proof.
  revert i j. induction l as [|[k0 r0] l IH]; intros i j Hj Hr.
  - destruct j; discriminate.
  - simpl. destruct j as [|j]; simpl in Hj.
    + injection Hj as -> ->. rewrite Nat.add_0_r in Hr.
      now rewrite (print_record_raises _ _ Hr).
    + destruct (print_record (clock i) r0) as [[]|[]]; [|reflexivity].
      cbn [mbind result_bind]. apply (IH (S i) j Hj).
      now replace (S i + j)%nat with (i + S j)%nat by lia.
Qed.

(** X6.  [delete_record] changes nothing when no name matches, whatever
    identifier would be typed.  When some name matches, the matches are
    printed first: if printing one of them raises [ValueError], as
    [days_to_birthday] does for it, [delete_record] raises it, before any
    identifier is read, and the store is unchanged.  If none does, the
    identifier typed is looked up in the whole mapping, not among the
    matches: the store becomes what [delete_record_by_id] makes of it, so
    a live record whose name does not match is deleted as well. *)
Theorem delete_record_checks_store_only (lower : string → string)
  (clock : nat → datetime) (nm : string) (parsed : option Z)
  (b : AddressBook) :
  (find_records_by_name lower nm b = [] →
   delete_record lower clock nm parsed b = (b, Ok NoMatchingRecords))
  ∧ (∀ j k r,
       nth_error (find_records_by_name lower nm b) j = Some (k, r) →
       days_to_birthday (clock j) r = Raise ValueError →
       delete_record lower clock nm parsed b = (b, Raise ValueError))
  ∧ (find_records_by_name lower nm b ≠ [] →
     (∀ j k r,
        nth_error (find_records_by_name lower nm b) j = Some (k, r) →
        days_to_birthday (clock j) r ≠ Raise ValueError) →
     delete_record lower clock nm parsed b
     = (fst (delete_record_by_id parsed b),
        Ok (Matching (find_records_by_name lower nm b)
                     (snd (delete_record_by_id parsed b))))).
Proof.
  unfold delete_record, delete_record_by_id. split; [|split].
  - intros ->. reflexivity.
  - intros j k r Hj Hr.
    pose proof (print_records_raises clock 0 _ j k r Hj Hr) as Hp.
    destruct (find_records_by_name lower nm b) as [|x l];
      [destruct j; discriminate|].
    now rewrite Hp.
  - intros Hne Hall.
    pose proof (print_records_ok clock 0 _ Hall) as Hp.
    destruct (find_records_by_name lower nm b) as [|x l]; [contradiction|].
    rewrite Hp. destruct parsed as [i|]; [|reflexivity].
    destruct (dict_contains i (data b)); reflexivity.
Qed.

Lemma delete_record_checks_store_only_witness :
  find_records_by_name ascii_lower "Ewa" leap_book = []
  ∧ nth_error (find_records_by_name ascii_lower "ola" leap_book) 0
    = Some (2, set_id (Some 2) ola)
  ∧ days_to_birthday (june_2023 0) (set_id (Some 2) ola) = Raise ValueError
  ∧ delete_record ascii_lower june_2023 "Ewa" (Some 1) leap_book
    = (leap_book, Ok NoMatchingRecords)
  ∧ delete_record ascii_lower june_2023 "ola" (Some 2) leap_book
    = (leap_book, Raise ValueError)
  ∧ dict_keys (data (fst (delete_record ascii_lower june_2023 "ewa" (Some 3)
                                        search_book)))
    = [1; 2].
Proof.
  assert (H1 : find_records_by_name ascii_lower "Ewa" leap_book = [])
    by reflexivity.
  assert (H2 : nth_error (find_records_by_name ascii_lower "ola" leap_book) 0
               = Some (2, set_id (Some 2) ola)) by reflexivity.
  assert (H3 : days_to_birthday (june_2023 0) (set_id (Some 2) ola)
               = Raise ValueError) by reflexivity.
  assert (H4 : find_records_by_name ascii_lower "ewa" search_book ≠ [])
    by (vm_compute; discriminate).
  assert (H5 : ∀ j k r,
    nth_error (find_records_by_name ascii_lower "ewa" search_book) j
    = Some (k, r) →
    days_to_birthday (june_2023 j) r ≠ Raise ValueError).
  { assert (Hf : find_records_by_name ascii_lower "ewa" search_book
                 = [(2, ewa)]) by reflexivity.
    intros j k r. rewrite Hf. destruct j as [|[|j]]; simpl;
      [|discriminate|discriminate].
    intros [= <- <-]. vm_compute. discriminate. }
  split; [exact H1|]. split; [exact H2|]. split; [exact H3|]. split; [|split].
  - exact (proj1 (delete_record_checks_store_only ascii_lower june_2023
                    "Ewa" (Some 1) leap_book) H1).
  - exact (proj1 (proj2 (delete_record_checks_store_only ascii_lower
                           june_2023 "ola" (Some 2) leap_book))
                 0%nat 2 (set_id (Some 2) ola) H2 H3).
  - rewrite (proj2 (proj2 (delete_record_checks_store_only ascii_lower
                             june_2023 "ewa" (Some 3) search_book)) H4 H5).
    reflexivity.
Defined.

(** ** Paging *)

Lemma dict_values_length (d : pydict) : length (dict_values d) = length d.
Proof. unfold dict_values. apply length_map. Qed.

Lemma batches_from_concat (fuel : nat) (b : AddressBook) (current : nat) :
  (length (data b) <= current + 5 * fuel)%nat →
  concat (batches_from fuel b current) = skipn current (dict_values (data b)).
Proof.
  revert current. induction fuel as [|fuel IH]; intros current Hfuel; simpl.
  - symmetry. apply skipn_all2. rewrite dict_values_length. lia.
  - unfold iter_next. destruct (Nat.ltb_spec current (length (data b))).
    + simpl. rewrite IH by lia.
      rewrite Nat.add_comm, <- skipn_skipn. apply firstn_skipn.
    + simpl. symmetry. apply skipn_all2. rewrite dict_values_length. lia.
Qed.

Lemma batches_from_nil (fuel : nat) (b : AddressBook) (current : nat) :
  (length (data b) <= current)%nat → batches_from fuel b current = [].
Proof.
  intros Hge. destruct fuel; simpl; [reflexivity|].
  unfold iter_next. destruct (Nat.ltb_spec current (length (data b)));
    [lia|reflexivity].
Qed.

Lemma batches_from_cons (fuel : nat) (b : AddressBook) (current : nat) :
  (current < length (data b))%nat →
  batches_from (S fuel) b current
  = firstn 5 (skipn current (dict_values (data b)))
    :: batches_from fuel b (current + 5).
Proof.
  intros Hlt. simpl. unfold iter_next.
  destruct (Nat.ltb_spec current (length (data b))); [reflexivity|lia].
Qed.

Lemma batch_length (b : AddressBook) (current : nat) :
  length (firstn 5 (skipn current (dict_values (data b))))
  = Nat.min 5 (length (data b) - current).
Proof. now rewrite length_firstn, length_skipn, dict_values_length. Qed.

Lemma batches_from_sizes (fuel : nat) (b : AddressBook) (current : nat) :
  (length (data b) <= current + 5 * fuel)%nat →
  Forall (fun records => (1 <= length records <= 5)%nat)
         (batches_from fuel b current)
  ∧ Forall (fun records => length records = 5%nat)
           (removelast (batches_from fuel b current))
  ∧ (5 * length (batches_from fuel b current) < length (data b) - current + 5
     ∧ length (data b) - current
       <= 5 * length (batches_from fuel b current))%nat.
Proof.
  revert current. induction fuel as [|fuel IH]; intros current Hfuel.
  - simpl. repeat split; auto; lia.
  - destruct (Nat.ltb_spec current (length (data b))) as [Hlt|Hge].
    + rewrite (batches_from_cons fuel b current Hlt).
      destruct (IH (current + 5)%nat) as (Hsz & Hfull & Hcnt); [lia|].
      pose proof (batch_length b current) as Hlen.
      split; [|split].
      * constructor; [lia|exact Hsz].
      * destruct (Nat.ltb_spec (current + 5) (length (data b))) as [Hm|Hm].
        -- assert (Hne : batches_from fuel b (current + 5) ≠ []).
           { destruct fuel; [lia|].
             rewrite (batches_from_cons fuel b _ Hm). discriminate. }
           destruct (batches_from fuel b (current + 5)) as [|next rest];
             [contradiction|].
           cbn [removelast] in *. constructor; [lia|exact Hfull].
        -- rewrite (batches_from_nil fuel b _ Hm). simpl. constructor.
      * simpl length. lia.
    + rewrite (batches_from_nil _ b current Hge). simpl.
      repeat split; auto; lia.
Qed.

(** X7.  A [for] loop over the book receives every record of the
    mapping exactly once and in the order of the mapping: the batches,
    put end to end, are [self.data.values()]. *)
Theorem paging_yields_every_record (b : AddressBook) :
  concat (batches b) = dict_values (data b).
Proof.
  unfold batches, iter_start.
  rewrite batches_from_concat by lia. reflexivity.
Qed.

(** X8.  Every batch holds between one and five records and every batch
    but the last holds five; a store of [n] records gives [(n + 4) / 5]
    batches, none when it is empty; and the loop ends because the call of
    [__next__] after the last batch raises [StopIteration]. *)
Theorem paging_batch_sizes (b : AddressBook) :
  Forall (fun records => (1 <= length records <= 5)%nat) (batches b)
  ∧ Forall (fun records => length records = 5%nat) (removelast (batches b))
  ∧ length (batches b) = ((length (data b) + 4) / 5)%nat
  ∧ fst (iter_next b (5 * length (batches b))) = None.
Proof.
  unfold batches, iter_start.
  destruct (batches_from_sizes (S (length (data b))) b 0)
    as (Hsz & Hfull & Hlo & Hhi); [lia|].
  split; [exact Hsz|]. split; [exact Hfull|]. split.
  - apply Nat.div_unique with
      (r := (length (data b) + 4 - 5 * length (batches_from
               (S (length (data b))) b 0))%nat); lia.
  - unfold iter_next.
    destruct (Nat.ltb_spec
                (5 * length (batches_from (S (length (data b))) b 0))
                (length (data b))); [lia|reflexivity].
Qed.

(** Twelve records come in batches of five, five and two. *)
Example paging_twelve :
  List.map (@length record) (batches twelve_book) = [5; 5; 2]%nat.
Proof. reflexivity. Qed.

(** ** Searching by name *)

Lemma str_in_empty (hay : string) : str_in EmptyString hay = true.
Proof. destruct hay; reflexivity. Qed.

Section NameSearchProperties.

Variable lower : string → string.

Lemma find_records_by_name_In (nm : string) (b : AddressBook)
  (kv : Z * record) :
  In kv (find_records_by_name lower nm b)
  ↔ In kv (data b)
    ∧ substring_of (lower nm) (lower (value (name (snd kv)))).
Proof.
  unfold find_records_by_name. rewrite filter_In, str_in_spec. reflexivity.
Qed.

(** X9.  [find_records_by_name] returns the [(id, record)] pairs of the
    mapping whose name, lower-cased, holds the lower-cased text, and only
    those, in the order of the mapping. *)
Theorem find_records_by_name_exact (nm : string) (b : AddressBook) :
  (∀ kv, In kv (find_records_by_name lower nm b)
         ↔ In kv (data b)
           ∧ substring_of (lower nm) (lower (value (name (snd kv)))))
  ∧ sublist (find_records_by_name lower nm b) (data b).
Proof.
  split; [intros kv; apply find_records_by_name_In|].
  unfold find_records_by_name. induction (data b) as [|kv d IH]; simpl.
  - constructor.
  - destruct (str_in (lower nm) (lower (value (name (snd kv))))).
    + now apply sublist_skip.
    + now apply sublist_cons.
Qed.

(** X10.  Whatever [find_records_by_name] finds, [find_record] finds too,
    in the same order: the records of the first are a subsequence of the
    result of the second. *)
Theorem find_record_extends_name_search (term : string) (b : AddressBook) :
  sublist (List.map snd (find_records_by_name lower term b))
          (find_record lower term b).
Proof.
  unfold find_record, find_records_by_name, dict_values.
  rewrite find_record_loop_flat_map.
  induction (data b) as [|kv d IH]; simpl; [constructor|].
  unfold find_record_body at 1.
  destruct (str_in (lower term) (lower (value (name (snd kv))))); simpl.
  - now apply sublist_skip.
  - now apply sublist_inserts_l.
Qed.

(** X11.  With the empty text every record matches by its name: if
    lower-casing the empty string gives the empty string, [find_record]
    returns each record of the mapping once, in order, and
    [find_records_by_name] returns the whole mapping. *)
Theorem search_for_empty_text (b : AddressBook) :
  lower EmptyString = EmptyString →
  find_record lower EmptyString b = dict_values (data b)
  ∧ find_records_by_name lower EmptyString b = data b.
Proof.
  intros Hlow. split.
  - unfold find_record, dict_values. rewrite find_record_loop_flat_map.
    induction (data b) as [|kv d IH]; simpl; [reflexivity|].
    unfold find_record_body at 1. rewrite Hlow, str_in_empty. simpl.
    now rewrite IH.
  - unfold find_records_by_name. rewrite Hlow.
    induction (data b) as [|kv d IH]; simpl; [reflexivity|].
    rewrite str_in_empty. now rewrite IH.
Qed.

(** X12.  The suggestion [edit_record] asks for, on the non-empty result
    of [find_records_by_name], never raises: it is the name of one of the
    records found, so a name that holds the text typed, lower-cased
    both. *)
Theorem suggestion_after_name_search (nm : string) (b : AddressBook) :
  find_records_by_name lower nm b ≠ [] →
  ∃ k r,
    In (k, r) (find_records_by_name lower nm b)
    ∧ suggest_correction_name nm (find_records_by_name lower nm b)
      = Ok (value (name r))
    ∧ substring_of (lower nm) (lower (value (name r))).
Proof.
  intros Hne.
  destruct (find_records_by_name lower nm b) as [|c cands] eqn:Hfound;
    [contradiction|].
  pose proof (min_loop_stable (name_distance nm) cands c)
    as (pre & post & Heq & _ & _).
  unfold suggest_correction_name, py_min. cbn [mbind result_bind].
  fold (name_distance nm).
  destruct (min_loop (name_distance nm) c cands) as [k r].
  exists k, r.
  assert (Hin : In (k, r) (c :: cands)) by (rewrite Heq; apply in_elt).
  split; [exact Hin|]. split; [reflexivity|].
  rewrite <- Hfound in Hin. now apply find_records_by_name_In in Hin.
Qed.

End NameSearchProperties.

Lemma search_for_empty_text_witness :
  ascii_lower EmptyString = EmptyString
  ∧ find_record ascii_lower EmptyString search_book
    = dict_values (data search_book)
  ∧ find_records_by_name ascii_lower EmptyString search_book
    = data search_book.
Proof.
  split; [reflexivity|].
  apply (search_for_empty_text ascii_lower search_book). reflexivity.
Defined.

Lemma suggestion_after_name_search_witness :
  find_records_by_name ascii_lower "an" search_book ≠ []
  ∧ ∃ k r,
      In (k, r) (find_records_by_name ascii_lower "an" search_book)
      ∧ suggest_correction_name "an"
          (find_records_by_name ascii_lower "an" search_book)
        = Ok (value (name r))
      ∧ substring_of (ascii_lower "an") (ascii_lower (value (name r))).
Proof.
  assert (Hne : find_records_by_name ascii_lower "an" search_book ≠ [])
    by (vm_compute; discriminate).
  split; [exact Hne|].
  exact (suggestion_after_name_search ascii_lower "an" search_book Hne).
Defined.

(** Both names hold "an"; the nearer one, Jan Nowak, is suggested. *)
Example suggestion_after_name_search_sample :
  List.map fst (find_records_by_name ascii_lower "an" search_book) = [1; 3]
  ∧ suggest_correction_name "an"
      (find_records_by_name ascii_lower "an" search_book)
    = Ok "Jan Nowak".
Proof. vm_compute. auto. Qed.

Lemma chars_inj (s t : string) : chars s = chars t → s = t.
Proof.
  unfold chars. intros Heq.
  rewrite <- (string_of_list_ascii_of_string s),
          <- (string_of_list_ascii_of_string t).
  now rewrite Heq.
Qed.

(** X13.  When a candidate bears exactly the text typed as its name, that
    text is what [suggest_correction_name] returns. *)
Theorem suggest_exact_name (name_to_edit : string)
  (matching_records : list (Z * record)) (k : Z) (r : record) :
  In (k, r) matching_records →
  value (name r) = name_to_edit →
  suggest_correction_name name_to_edit matching_records = Ok name_to_edit.
Proof.
  intros Hin Hname. destruct matching_records as [|c cands]; [destruct Hin|].
  pose proof (min_loop_stable (name_distance name_to_edit) cands c)
    as (pre & post & Heq & Hpre & Hpost).
  unfold suggest_correction_name, py_min. cbn [mbind result_bind].
  fold (name_distance name_to_edit).
  set (best := min_loop (name_distance name_to_edit) c cands) in *.
  assert (Hzero : name_distance name_to_edit (k, r) = 0%nat).
  { unfold name_distance. simpl. rewrite Hname. apply lev_refl. }
  assert (Hbest : name_distance name_to_edit best = 0%nat).
  { rewrite Heq in Hin. apply in_app_or in Hin.
    destruct Hin as [Hin|[Hin|Hin]].
    - specialize (Hpre _ Hin). lia.
    - now rewrite Hin.
    - specialize (Hpost _ Hin). lia. }
  apply lev_zero_eq, chars_inj in Hbest. now rewrite <- Hbest.
Qed.

Lemma suggest_exact_name_witness :
  In (3, set_id (Some 3) jan) (data search_book)
  ∧ value (name (set_id (Some 3) jan)) = "Jan Nowak"
  ∧ suggest_correction_name "Jan Nowak" (data search_book) = Ok "Jan Nowak".
Proof.
  assert (Hin : In (3, set_id (Some 3) jan) (data search_book))
    by (simpl; auto).
  split; [exact Hin|]. split; [reflexivity|].
  exact (suggest_exact_name "Jan Nowak" (data search_book) 3
           (set_id (Some 3) jan) Hin eq_refl).
Defined.

(** ** More on the days to the birthday *)

Lemma days_before_year_succ (y : Z) :
  days_before_year (y + 1) = days_before_year y + 365 + leap_day y.
Proof.
  unfold days_before_year, leap_day, is_leap.
  replace (y + 1 - 1) with y by lia.
  destruct (Z.eqb_spec (y mod 4) 0), (Z.eqb_spec (y mod 100) 0),
    (Z.eqb_spec (y mod 400) 0); simpl;
    Z.div_mod_to_equations; lia.
Qed.

Lemma is_leap_succ (y : Z) : is_leap y = true → is_leap (y + 1) = false.
Proof.
  unfold is_leap.
  destruct (Z.eqb_spec (y mod 4) 0), (Z.eqb_spec ((y + 1) mod 4) 0);
    simpl; try reflexivity; try discriminate.
  exfalso. Z.div_mod_to_equations. lia.
Qed.

Lemma day_of_year_bounds (y m d : Z) :
  1 ≤ m ≤ 12 → 1 ≤ d ≤ days_in_month y m →
  1 ≤ days_before_month y m + d ≤ 365 + leap_day y.
Proof.
  intros Hm. unfold days_before_month, days_in_month, leap_day.
  destruct (is_leap y); month_cases m; simpl; lia.
Qed.

Lemma check_date_fields_bounds (y m d : Z) :
  check_date_fields y m d = true →
  1 ≤ m ≤ 12 ∧ 1 ≤ d ≤ days_in_month y m.
Proof. unfold check_date_fields. intros H. bool_hyps. lia. Qed.

Lemma next_year_gap (y m d : Z) :
  ymd2ord (y + 1) m d - ymd2ord y m d
  = 365 + (if m <=? 2 then leap_day y else leap_day (y + 1)).
Proof.
  unfold ymd2ord. rewrite days_before_year_succ.
  unfold days_before_month, leap_day.
  destruct (Z.leb_spec m 2), (Z.ltb_spec 2 m); try lia;
    destruct (is_leap y), (is_leap (y + 1)); simpl; lia.
Qed.

Lemma instant_at_midnight (y : Z) (b : date) :
  instant (at_midnight y b) = ymd2ord y (month b) (day b) * MICROSECONDS_PER_DAY.
Proof.
  unfold instant, at_midnight, toordinal, seconds_of_day, MICROSECONDS_PER_DAY.
  simpl. lia.
Qed.

Lemma instant_split (t : datetime) :
  valid_datetime t = true →
  instant t = toordinal t * MICROSECONDS_PER_DAY + time_of_day t
  ∧ 0 ≤ time_of_day t < MICROSECONDS_PER_DAY.
Proof.
  unfold valid_datetime, check_time_fields. intros H. bool_hyps.
  unfold instant, time_of_day, seconds_of_day, MICROSECONDS_PER_DAY. lia.
Qed.

(** The two ways [days_to_birthday] returns a number. *)
Lemma days_to_birthday_cases (today : datetime) (r : record) (n : Z) :
  valid_datetime today = true →
  days_to_birthday today r = Ok (Days n) →
  ∃ b, birthday r = Some b
       ∧ check_date_fields (dt_year today) (month b) (day b) = true
       ∧ ((instant today ≤ instant (at_midnight (dt_year today) b)
           ∧ n = (instant (at_midnight (dt_year today) b) - instant today)
                 / MICROSECONDS_PER_DAY)
          ∨ (instant (at_midnight (dt_year today) b) < instant today
             ∧ check_date_fields (dt_year today + 1) (month b) (day b) = true
             ∧ n = (instant (at_midnight (dt_year today + 1) b)
                    - instant today) / MICROSECONDS_PER_DAY)).
Proof.
  intros Hv. unfold days_to_birthday.
  destruct (birthday r) as [b|]; [|discriminate].
  cbv zeta. change (bday_of b) with (at_midnight (year b) b).
  destruct (check_date_fields (dt_year today) (month b) (day b)) eqn:Hthis.
  - rewrite (replace_year_midnight _ _ _ Hthis). cbn [mbind result_bind].
    pose proof (dt_gt_same_year today b Hv Hthis) as Hgt.
    destruct (dt_gt today (at_midnight (dt_year today) b)) eqn:Hd.
    + assert (Hlt : instant (at_midnight (dt_year today) b) < instant today)
        by now apply Hgt.
      destruct (check_date_fields (dt_year today + 1) (month b) (day b))
        eqn:Hnext.
      * rewrite (replace_year_midnight _ _ _ Hnext). cbn [mbind result_bind].
        rewrite sub_days_instant. intros [= <-]. exists b. auto 10.
      * unfold replace_year, at_midnight. simpl. rewrite Hnext.
        discriminate.
    + assert (Hge : ¬ instant (at_midnight (dt_year today) b) < instant today).
      { intros Hlt. apply Hgt in Hlt. discriminate. }
      cbn [mbind result_bind]. rewrite sub_days_instant. intros [= <-].
      exists b. split; [reflexivity|]. split; [exact Hthis|]. left.
      split; [lia|reflexivity].
  - unfold replace_year, at_midnight. simpl. rewrite Hthis. discriminate.
Qed.

(** X14.  Whenever [days_to_birthday] returns a number, for a valid
    [today], the number is between 0 and 365. *)
Theorem days_to_birthday_range (today : datetime) (r : record) (n : Z) :
  valid_datetime today = true →
  days_to_birthday today r = Ok (Days n) →
  0 ≤ n ≤ 365.
Proof.
  intros Hv Hres.
  destruct (days_to_birthday_cases today r n Hv Hres)
    as (b & _ & Hthis & Hcase).
  destruct (instant_split today Hv) as [Hnow Htod].
  apply check_date_fields_bounds in Hthis as Hb.
  assert (Ht : 1 ≤ dt_month today ≤ 12
               ∧ 1 ≤ dt_day today
                     ≤ days_in_month (dt_year today) (dt_month today)).
  { unfold valid_datetime in Hv. bool_hyps.
    now apply check_date_fields_bounds. }
  pose proof (day_of_year_bounds _ _ _ (proj1 Hb) (proj2 Hb)) as Hdb.
  pose proof (day_of_year_bounds _ _ _ (proj1 Ht) (proj2 Ht)) as Hdt.
  pose proof (next_year_gap (dt_year today) (month b) (day b)) as Hgap.
  assert (Hleap : 0 ≤ leap_day (dt_year today) ≤ 1
                  ∧ 0 ≤ leap_day (dt_year today + 1) ≤ 1)
    by (unfold leap_day; destruct (is_leap _), (is_leap _); lia).
  rewrite !instant_at_midnight, Hnow in Hcase.
  unfold toordinal, ymd2ord in *.
  unfold MICROSECONDS_PER_DAY in *.
  pose proof (days_before_year_succ (dt_year today)) as Hsucc.
  destruct Hcase as [[Hle ->]|(Hlt & Hnext & ->)].
  - clear Hgap. Z.div_mod_to_equations. lia.
  - apply check_date_fields_bounds in Hnext.
    pose proof (day_of_year_bounds _ _ _ (proj1 Hnext) (proj2 Hnext)) as Hdn.
    destruct (month b <=? 2); Z.div_mod_to_equations; lia.
Qed.

Lemma days_to_birthday_value (today : datetime) (r : record) (b : date) :
  birthday r = Some b →
  valid_datetime today = true →
  check_date_fields (dt_year today) (month b) (day b) = true →
  days_to_birthday today r
  = if instant (at_midnight (dt_year today) b) <? instant today
    then (if check_date_fields (dt_year today + 1) (month b) (day b)
          then Ok (Days ((instant (at_midnight (dt_year today + 1) b)
                          - instant today) / MICROSECONDS_PER_DAY))
          else Raise ValueError)
    else Ok (Days ((instant (at_midnight (dt_year today) b) - instant today)
                   / MICROSECONDS_PER_DAY)).
Proof.
  intros Hb Hv Hthis. unfold days_to_birthday. rewrite Hb.
  cbv zeta. change (bday_of b) with (at_midnight (year b) b).
  rewrite (replace_year_midnight _ _ _ Hthis). cbn [mbind result_bind].
  pose proof (dt_gt_same_year today b Hv Hthis) as Hgt.
  destruct (Z.ltb_spec (instant (at_midnight (dt_year today) b))
                       (instant today)) as [Hlt|Hge].
  - apply Hgt in Hlt. rewrite Hlt.
    destruct (check_date_fields (dt_year today + 1) (month b) (day b))
      eqn:Hnext.
    + rewrite (replace_year_midnight _ _ _ Hnext). cbn [mbind result_bind].
      now rewrite sub_days_instant.
    + unfold replace_year, at_midnight. simpl. now rewrite Hnext.
  - destruct (dt_gt today (at_midnight (dt_year today) b)) eqn:Hd.
    + assert (instant (at_midnight (dt_year today) b) < instant today)
        by now apply Hgt.
      lia.
    + cbn [mbind result_bind]. now rewrite sub_days_instant.
Qed.

Lemma time_of_day_zero (t : datetime) :
  valid_datetime t = true →
  (time_of_day t = 0 ↔ is_midnight t = true).
Proof.
  unfold valid_datetime, check_time_fields. intros H. bool_hyps.
  unfold time_of_day, seconds_of_day, is_midnight.
  rewrite !andb_true_iff, !Z.eqb_eq. lia.
Qed.

(** X15.  On the day of the birthday the answer is 0 only at
    00:00:00.000000: at any later time of that day the candidate of the
    current year is already past, and the function returns the days to
    the birthday of the next year, 364 or 365. *)
Theorem days_to_birthday_on_the_day (today : datetime) (r : record)
  (b : date) :
  birthday r = Some b →
  valid_datetime today = true →
  dt_month today = month b →
  dt_day today = day b →
  check_date_fields (dt_year today + 1) (month b) (day b) = true →
  days_to_birthday today r
  = Ok (Days (if is_midnight today then 0
              else 364 + (if month b <=? 2 then leap_day (dt_year today)
                          else leap_day (dt_year today + 1)))).
Proof.
  intros Hb Hv Hm Hd Hnext.
  assert (Hthis : check_date_fields (dt_year today) (month b) (day b) = true).
  { unfold valid_datetime in Hv. apply andb_true_iff in Hv.
    rewrite <- Hm, <- Hd. apply Hv. }
  rewrite (days_to_birthday_value today r b Hb Hv Hthis), Hnext.
  destruct (instant_split today Hv) as [Hnow Htod].
  pose proof (time_of_day_zero today Hv) as Hz.
  pose proof (next_year_gap (dt_year today) (month b) (day b)) as Hgap.
  rewrite !instant_at_midnight, Hnow. unfold toordinal.
  rewrite Hm, Hd. unfold MICROSECONDS_PER_DAY in *.
  set (B0 := ymd2ord (dt_year today) (month b) (day b)) in *.
  set (B1 := ymd2ord (dt_year today + 1) (month b) (day b)) in *.
  destruct (is_midnight today).
  - assert (time_of_day today = 0) as -> by now apply Hz.
    destruct (Z.ltb_spec (B0 * (86400 * 1000000))
                         (B0 * (86400 * 1000000) + 0)); [lia|].
    do 2 f_equal. Z.div_mod_to_equations. lia.
  - assert (time_of_day today ≠ 0) by (intros H0; apply Hz in H0; discriminate).
    destruct (Z.ltb_spec (B0 * (86400 * 1000000))
                         (B0 * (86400 * 1000000) + time_of_day today));
      [|lia].
    do 2 f_equal. destruct (month b <=? 2); Z.div_mod_to_equations; lia.
Qed.

Lemma replace_year_midnight_raises (y y0 : Z) (b : date) :
  check_date_fields y (month b) (day b) = false →
  replace_year y (at_midnight y0 b) = Raise ValueError.
Proof. intros H. unfold replace_year, at_midnight. simpl. now rewrite H. Qed.

(** X16.  For a birthday on 29 February [days_to_birthday] raises
    [ValueError] exactly when the current year is not a leap year or the
    29 February of the current year is before [today]; it returns a number
    only in a leap year up to 29 February 00:00. *)
Theorem days_to_birthday_leap_day_birthday (today : datetime) (r : record)
  (b : date) :
  birthday r = Some b →
  month b = 2 → day b = 29 →
  valid_datetime today = true →
  (days_to_birthday today r = Raise ValueError
   ↔ is_leap (dt_year today) = false
     ∨ instant (at_midnight (dt_year today) b) < instant today).
Proof.
  intros Hb Hm Hd Hv.
  assert (Hchk : ∀ y, check_date_fields y 2 29 = true → is_leap y = true).
  { intros y. unfold check_date_fields, days_in_month.
    destruct (is_leap y); [reflexivity|]. simpl. intros H. bool_hyps. lia. }
  destruct (check_date_fields (dt_year today) (month b) (day b)) eqn:Hthis.
  - rewrite (days_to_birthday_value today r b Hb Hv Hthis).
    rewrite Hm, Hd in Hthis. apply Hchk in Hthis as Hleap.
    assert (Hnext : check_date_fields (dt_year today + 1) (month b) (day b)
                    = false).
    { rewrite Hm, Hd.
      destruct (check_date_fields (dt_year today + 1) 2 29) eqn:Hn;
        [|reflexivity].
      apply Hchk in Hn. rewrite (is_leap_succ _ Hleap) in Hn. discriminate. }
    rewrite Hnext, Hleap.
    destruct (Z.ltb_spec (instant (at_midnight (dt_year today) b))
                         (instant today)).
    + split; auto.
    + split; [discriminate|]. intros [H0|H0]; [discriminate|lia].
  - assert (Hleap : is_leap (dt_year today) = false).
    { rewrite Hm, Hd in Hthis.
      destruct (is_leap (dt_year today)) eqn:Hl; [|reflexivity].
      exfalso. unfold valid_datetime, check_date_fields in Hv. bool_hyps.
      assert (Hok : check_date_fields (dt_year today) 2 29 = true).
      { unfold check_date_fields, days_in_month. rewrite Hl. simpl.
        rewrite !andb_true_iff, !Z.leb_le. lia. }
      congruence. }
    split; [auto|]. intros _.
    unfold days_to_birthday. rewrite Hb. cbv zeta.
    change (bday_of b) with (at_midnight (year b) b).
    now rewrite (replace_year_midnight_raises _ _ _ Hthis).
Qed.

Lemma days_to_birthday_range_witness :
  valid_datetime (mkDT 2024 6 15 12 30 0 0) = true
  ∧ days_to_birthday (mkDT 2024 6 15 12 30 0 0) anna = Ok (Days 199)
  ∧ 0 ≤ 199 ≤ 365.
Proof.
  split; [reflexivity|]. split; [reflexivity|].
  exact (days_to_birthday_range (mkDT 2024 6 15 12 30 0 0) anna 199
           eq_refl eq_refl).
Defined.

Lemma days_to_birthday_on_the_day_witness :
  birthday anna = Some (mkDate 2000 1 1)
  ∧ valid_datetime (mkDT 2023 1 1 9 0 0 0) = true
  ∧ check_date_fields (2023 + 1) 1 1 = true
  ∧ days_to_birthday (mkDT 2023 1 1 9 0 0 0) anna = Ok (Days 364)
  ∧ days_to_birthday (mkDT 2023 1 1 0 0 0 0) anna = Ok (Days 0).
Proof.
  split; [reflexivity|]. split; [reflexivity|]. split; [reflexivity|]. split.
  - exact (days_to_birthday_on_the_day (mkDT 2023 1 1 9 0 0 0) anna
             (mkDate 2000 1 1) eq_refl eq_refl eq_refl eq_refl eq_refl).
  - exact (days_to_birthday_on_the_day (mkDT 2023 1 1 0 0 0 0) anna
             (mkDate 2000 1 1) eq_refl eq_refl eq_refl eq_refl eq_refl).
Defined.

Lemma days_to_birthday_leap_day_birthday_witness :
  birthday ola = Some (mkDate 2000 2 29)
  ∧ valid_datetime (mkDT 2024 3 1 0 0 0 0) = true
  ∧ is_leap 2024 = true
  ∧ days_to_birthday (mkDT 2024 3 1 0 0 0 0) ola = Raise ValueError.
Proof.
  split; [reflexivity|]. split; [reflexivity|]. split; [reflexivity|].
  apply (days_to_birthday_leap_day_birthday (mkDT 2024 3 1 0 0 0 0) ola
           (mkDate 2000 2 29) eq_refl eq_refl eq_refl eq_refl).
  right. vm_compute. reflexivity.
Defined.

(** In a leap year, up to 29 February, a number is returned. *)
Example days_to_birthday_leap_day_in_time :
  days_to_birthday (mkDT 2024 2 1 8 0 0 0) ola = Ok (Days 27).
Proof. reflexivity. Qed.

(** ** Regular expressions *)

Lemma nullable_spec (r : regex) : nullable r = true ↔ re_lang r [].
Proof.
  induction r as [| |cls|r1 IH1 r2 IH2|r1 IH1 r2 IH2|r IH]; simpl.
  - split; [discriminate|]. intros H. inversion H.
  - split; [constructor|reflexivity].
  - split; [discriminate|]. intros H. inversion H.
  - rewrite andb_true_iff, IH1, IH2. split.
    + intros [H1 H2]. apply (lang_seq _ _ [] [] H1 H2).
    + intros H. inversion H as [| |? ? s1 s2 H1 H2 E1 E2| | | |]. subst.
      apply app_eq_nil in E2. destruct E2 as [-> ->]. auto.
  - rewrite orb_true_iff, IH1, IH2. split.
    + intros [H|H]; [now apply lang_alt_l|now apply lang_alt_r].
    + intros H. inversion H; subst; auto.
  - split; [constructor|reflexivity].
Qed.

Lemma star_cons_inv (r : regex) (c : ascii) (s : list ascii) :
  re_lang (Star r) (c :: s) →
  ∃ s1 s2, s = s1 ++ s2 ∧ re_lang r (c :: s1) ∧ re_lang (Star r) s2.
Proof.
  intros H. remember (Star r) as r' eqn:Hr. remember (c :: s) as w eqn:Hw.
  revert s Hw. induction H as [| | | | | |r0 s1 s2 H1 _ H2 IH2];
    intros t Hw; try discriminate.
  injection Hr as ->. destruct s1 as [|c1 s1]; simpl in Hw.
  - subst s2. now apply IH2.
  - injection Hw as -> <-. eauto.
Qed.

Lemma deriv_spec (c : ascii) (r : regex) (s : list ascii) :
  re_lang (deriv c r) s ↔ re_lang r (c :: s).
Proof.
  revert s. induction r as [| |cls|r1 IH1 r2 IH2|r1 IH1 r2 IH2|r IH];
    intros s; simpl.
  - split; intros H; inversion H.
  - split; intros H; inversion H.
  - destruct (cls c) eqn:Hc; split; intros H; inversion H; subst.
    + now constructor.
    + constructor.
    + congruence.
  - assert (Hseq : re_lang (Seq (deriv c r1) r2) s
                   ↔ ∃ s1 s2, s = s1 ++ s2 ∧ re_lang r1 (c :: s1)
                              ∧ re_lang r2 s2).
    { split.
      - intros H. inversion H as [| |? ? s1 s2 H1 H2| | | |]; subst.
        exists s1, s2. rewrite <- IH1. auto.
      - intros (s1 & s2 & -> & H1 & H2). constructor; [now apply IH1|auto]. }
    destruct (nullable r1) eqn:Hn.
    + split.
      * intros H. inversion H as [| | |? ? ? Hl|? ? ? Hr| |]; subst.
        -- apply Hseq in Hl. destruct Hl as (s1 & s2 & -> & H1 & H2).
           apply (lang_seq _ _ (c :: s1) s2 H1 H2).
        -- apply nullable_spec in Hn. apply IH2 in Hr.
           apply (lang_seq _ _ [] (c :: s) Hn Hr).
      * intros H. inversion H as [| |? ? s1 s2 H1 H2 E1 E2| | | |]; subst.
        destruct s1 as [|c1 s1]; simpl in E2.
        -- subst s2. apply lang_alt_r. now apply IH2.
        -- injection E2 as -> <-. apply lang_alt_l. apply Hseq. eauto.
    + rewrite Hseq. split.
      * intros (s1 & s2 & -> & H1 & H2).
        apply (lang_seq _ _ (c :: s1) s2 H1 H2).
      * intros H. inversion H as [| |? ? s1 s2 H1 H2 E1 E2| | | |]; subst.
        destruct s1 as [|c1 s1]; simpl in E2.
        -- apply nullable_spec in H1. congruence.
        -- injection E2 as -> <-. eauto.
  - split; intros H; inversion H; subst.
    + apply lang_alt_l. now apply IH1.
    + apply lang_alt_r. now apply IH2.
    + apply lang_alt_l. now apply IH1.
    + apply lang_alt_r. now apply IH2.
  - split.
    + intros H. inversion H as [| |? ? s1 s2 H1 H2| | | |]; subst.
      apply IH in H1. apply (lang_star_cons _ (c :: s1) s2 H1 H2).
    + intros H. apply star_cons_inv in H.
      destruct H as (s1 & s2 & -> & H1 & H2).
      constructor; [now apply IH|auto].
Qed.

Lemma re_fullmatch_spec (r : regex) (s : list ascii) :
  re_fullmatch r s = true ↔ re_lang r s.
Proof.
  revert r. induction s as [|c s IH]; intros r; simpl.
  - apply nullable_spec.
  - rewrite IH. apply deriv_spec.
Qed.

(** ** The validators *)

Lemma lang_seq_iff (r1 r2 : regex) (s : list ascii) :
  re_lang (Seq r1 r2) s
  ↔ ∃ s1 s2, s = s1 ++ s2 ∧ re_lang r1 s1 ∧ re_lang r2 s2.
Proof.
  split.
  - intros H. inversion H as [| |? ? s1 s2 H1 H2| | | |]; subst. eauto.
  - intros (s1 & s2 & -> & H1 & H2). now constructor.
Qed.

Lemma lang_chars_iff (cls : ascii → bool) (s : list ascii) :
  re_lang (Chars cls) s ↔ ∃ c, s = [c] ∧ cls c = true.
Proof.
  split.
  - intros H. inversion H; subst. eauto.
  - intros (c & -> & Hc). now constructor.
Qed.

Lemma lang_is_char (x : ascii) (s : list ascii) :
  re_lang (Chars (is_char x)) s ↔ s = [x].
Proof.
  rewrite lang_chars_iff. unfold is_char. split.
  - intros (c & -> & Hc). apply Ascii.eqb_eq in Hc. now subst.
  - intros ->. exists x. split; [reflexivity|apply Ascii.eqb_refl].
Qed.

Lemma lang_dollar (s : list ascii) :
  re_lang dollar s ↔ s = [] ∨ s = [newline].
Proof.
  unfold dollar. split.
  - intros H. inversion H as [| | |? ? ? Hl|? ? ? Hr| |]; subst.
    + inversion Hl. now left.
    + apply lang_is_char in Hr. now right.
  - intros [->| ->].
    + apply lang_alt_l. constructor.
    + apply lang_alt_r. now apply lang_is_char.
Qed.

Lemma lang_times_chars (n : nat) (cls : ascii → bool) (s : list ascii) :
  re_lang (Times n (Chars cls)) s ↔ length s = n ∧ all_chars cls s.
Proof.
  unfold all_chars. revert s. induction n as [|n IH]; intros s; simpl.
  - split.
    + intros H. inversion H. split; [reflexivity|constructor].
    + intros [Hlen _]. destruct s; [constructor|discriminate].
  - rewrite lang_seq_iff. split.
    + intros (s1 & s2 & -> & H1 & H2). apply lang_chars_iff in H1.
      destruct H1 as (c & -> & Hc). apply IH in H2. destruct H2 as [<- H2].
      split; [reflexivity|]. now constructor.
    + intros [Hlen Hall]. destruct s as [|c s]; [discriminate|].
      apply Forall_cons in Hall. destruct Hall as [Hc Hall].
      exists [c], s. split; [reflexivity|]. split; [now constructor|].
      apply IH. split; [simpl in Hlen; lia|exact Hall].
Qed.

Lemma lang_star_chars (cls : ascii → bool) (s : list ascii) :
  re_lang (Star (Chars cls)) s ↔ all_chars cls s.
Proof.
  unfold all_chars. split.
  - intros H. remember (Star (Chars cls)) as r eqn:Hr.
    induction H as [| | | | | |r0 s1 s2 H1 _ H2 IH2]; try discriminate.
    + constructor.
    + injection Hr as ->. inversion H1; subst. simpl.
      constructor; [assumption|]. now apply IH2.
  - induction s as [|c s IH]; intros Hall; [constructor|].
    apply Forall_cons in Hall. destruct Hall as [Hc Hall].
    apply (lang_star_cons _ [c] s); [now constructor|auto].
Qed.

Lemma lang_plus_chars (cls : ascii → bool) (s : list ascii) :
  re_lang (Plus (Chars cls)) s ↔ s ≠ [] ∧ all_chars cls s.
Proof.
  unfold Plus. rewrite lang_seq_iff. split.
  - intros (s1 & s2 & -> & H1 & H2). apply lang_chars_iff in H1.
    destruct H1 as (c & -> & Hc). apply lang_star_chars in H2.
    split; [discriminate|]. now constructor.
  - intros [Hne Hall]. destruct s as [|c s]; [contradiction|].
    apply Forall_cons in Hall. destruct Hall as [Hc Hall].
    exists [c], s. split; [reflexivity|].
    split; [now constructor|now apply lang_star_chars].
Qed.

(** X17.  [validate_phone] accepts exactly the texts made of nine
    decimal digits, and those followed by one newline, which [$] lets
    pass. *)
Theorem validate_phone_exact (value : string) :
  validate_phone value = true
  ↔ ∃ digits,
      length digits = 9%nat
      ∧ all_chars is_digit digits
      ∧ (list_ascii_of_string value = digits
         ∨ list_ascii_of_string value = digits ++ [newline]).
Proof.
  unfold validate_phone, re_match, phone_pattern.
  rewrite re_fullmatch_spec, lang_seq_iff. split.
  - intros (s1 & s2 & Heq & H1 & H2). apply lang_times_chars in H1.
    apply lang_dollar in H2. exists s1. destruct H1 as [Hlen Hall].
    split; [exact Hlen|]. split; [exact Hall|].
    rewrite Heq. destruct H2 as [->| ->]; [left; apply app_nil_r|now right].
  - intros (digits & Hlen & Hall & [Heq|Heq]).
    + exists digits, []. rewrite app_nil_r.
      split; [exact Heq|]. split; [now apply lang_times_chars|].
      apply lang_dollar. now left.
    + exists digits, [newline].
      split; [exact Heq|]. split; [now apply lang_times_chars|].
      apply lang_dollar. now right.
Qed.

(** X18.  [validate_email] accepts exactly the texts of the form
    local part, [@], domain, dot, rest, each of the three non-empty and
    made of the characters of its class, possibly followed by one
    newline.  The domain holds no dot; the rest may hold dots and
    hyphens anywhere. *)
Theorem validate_email_exact (value : string) :
  validate_email value = true
  ↔ ∃ local domain rest nl,
      list_ascii_of_string value
      = local ++ "@"%char :: domain ++ "."%char :: rest ++ nl
      ∧ local ≠ [] ∧ all_chars local_char local
      ∧ domain ≠ [] ∧ all_chars domain_char domain
      ∧ rest ≠ [] ∧ all_chars tail_char rest
      ∧ (nl = [] ∨ nl = [newline]).
Proof.
  unfold validate_email, re_match, email_pattern.
  rewrite re_fullmatch_spec. split.
  - intros H.
    apply lang_seq_iff in H. destruct H as (local & s1 & E1 & Hl & H).
    apply lang_seq_iff in H. destruct H as (at_ & s2 & E2 & Hat & H).
    apply lang_seq_iff in H. destruct H as (domain & s3 & E3 & Hd & H).
    apply lang_seq_iff in H. destruct H as (dot & s4 & E4 & Hdot & H).
    apply lang_seq_iff in H. destruct H as (rest & nl & E5 & Hr & Hnl).
    apply lang_is_char in Hat, Hdot. subst.
    apply lang_plus_chars in Hl, Hd, Hr. apply lang_dollar in Hnl.
    exists local, domain, rest, nl. rewrite E1. simpl. tauto.
  - intros (local & domain & rest & nl & Heq & ? & ? & ? & ? & ? & ? & Hnl).
    rewrite Heq.
    apply (lang_seq _ _ local); [now apply lang_plus_chars|].
    apply (lang_seq _ _ ["@"%char]); [now apply lang_is_char|].
    apply (lang_seq _ _ domain); [now apply lang_plus_chars|].
    apply (lang_seq _ _ ["."%char]); [now apply lang_is_char|].
    apply lang_seq; [now apply lang_plus_chars|now apply lang_dollar].
Qed.

Example validate_phone_samples :
  validate_phone "123456789" = true
  ∧ validate_phone "12345" = false
  ∧ validate_phone "123-456-789" = false
  ∧ validate_phone (String.append "123456789" (String newline EmptyString))
    = true.
Proof. vm_compute. auto. Qed.

Example validate_email_samples :
  validate_email "anna@example.com" = true
  ∧ validate_email "anna@example" = false
  ∧ validate_email "an na@example.com" = false
  ∧ validate_email "a@b@example.com" = false
  ∧ validate_email "anna@example..-" = true.
Proof. vm_compute. auto. Qed.

Lemma count_occ_all_chars (cls : ascii → bool) (s : list ascii) (x : ascii) :
  all_chars cls s → cls x = false → count_occ ascii_dec s x = 0%nat.
Proof.
  intros Hall Hx. induction Hall as [|c s Hc _ IH]; simpl; [reflexivity|].
  destruct (ascii_dec c x) as [->|_]; [congruence|exact IH].
Qed.

(** X19.  A text that [validate_email] accepts holds exactly one [@]. *)
Theorem valid_email_one_at (value : string) :
  validate_email value = true →
  count_occ ascii_dec (list_ascii_of_string value) "@"%char = 1%nat.
Proof.
  intros H. apply validate_email_exact in H.
  destruct H as (local & domain & rest & nl & -> & _ & Hl & _ & Hd & _ & Hr
                 & Hnl).
  rewrite count_occ_app. simpl. rewrite count_occ_app. simpl.
  rewrite count_occ_app.
  rewrite (count_occ_all_chars _ _ _ Hl), (count_occ_all_chars _ _ _ Hd),
    (count_occ_all_chars _ _ _ Hr) by reflexivity.
  destruct Hnl as [->| ->]; reflexivity.
Qed.

(** ** Editing a phone in [edit_record] *)

Lemma list_remove_nth (l : list Field) (i : nat) (x : Field) :
  NoDup (List.map oid l) →
  nth_error l i = Some x →
  list_remove Field_eqb x l = Ok (firstn i l ++ skipn (S i) l).
Proof.
  revert i. induction l as [|y l IH]; intros i Hnd Hnth.
  - destruct i; discriminate.
  - simpl in Hnd. apply NoDup_cons in Hnd. destruct Hnd as [Hy Hnd].
    destruct i as [|i]; simpl in Hnth.
    + injection Hnth as ->. simpl. unfold Field_eqb.
      now rewrite Nat.eqb_refl.
    + simpl. unfold Field_eqb at 1.
      destruct (Nat.eqb_spec (oid y) (oid x)) as [Heq|Hne].
      * exfalso. apply Hy. rewrite Heq. apply list_elem_of_In, in_map.
        eapply nth_error_In, Hnth.
      * rewrite (IH i Hnd Hnth). reflexivity.
Qed.

(** X20.  The phone step of [edit_record], for a record whose phones
    are distinct objects: with a number [k] between 1 and the number of
    phones and a new number that [validate_phone] accepts, the phone at
    position [k] is removed, the others keep their order and the new phone
    goes last; with a new number it rejects, the record is unchanged and
    the error message is printed.  With [k] out of range the record is
    unchanged and the index is reported. *)
Theorem edit_record_phones_by_index (k : Z) (new_phone_number : string)
  (o : nat) (r : record) :
  (NoDup (List.map oid (phones r)) →
   1 ≤ k ≤ Z.of_nat (length (phones r)) →
   edit_record_phones (Some (Some k)) new_phone_number o r
   = if validate_phone new_phone_number
     then (set_phones (firstn (Z.to_nat (k - 1)) (phones r)
                       ++ skipn (Z.to_nat k) (phones r)
                       ++ [mkField o new_phone_number]) r,
           Updated)
     else (r, BadValue))
  ∧ (phones r ≠ [] →
     ¬ 1 ≤ k ≤ Z.of_nat (length (phones r)) →
     edit_record_phones (Some (Some k)) new_phone_number o r = (r, BadIndex)).
Proof.
  split.
  - intros Hnd Hk. unfold edit_record_phones.
    destruct (phones r) as [|p0 ps] eqn:Hph; [simpl in Hk; lia|].
    rewrite <- Hph in *. cbv zeta.
    destruct (Z.leb_spec 0 (k - 1)); [|lia].
    destruct (Z.ltb_spec (k - 1) (Z.of_nat (length (phones r)))); [|lia].
    cbn [andb].
    destruct (nth_error (phones r) (Z.to_nat (k - 1))) as [old|] eqn:Hnth.
    + unfold Phone. destruct (validate_phone new_phone_number); [|reflexivity].
      unfold edit_phone, remove_phone.
      rewrite (list_remove_nth _ _ _ Hnd Hnth). unfold add_phone, list_append.
      cbn [fst snd phones set_phones]. unfold set_phones at 1.
      cbn [phones id name emails birthday address tags notes].
      replace (S (Z.to_nat (k - 1))) with (Z.to_nat k) by lia.
      now rewrite <- app_assoc.
    + apply nth_error_None in Hnth. lia.
  - intros Hne Hk. unfold edit_record_phones.
    destruct (phones r) as [|p0 ps] eqn:Hph; [contradiction|].
    rewrite <- Hph in *. cbv zeta.
    destruct (Z.leb_spec 0 (k - 1)); [|reflexivity].
    destruct (Z.ltb_spec (k - 1) (Z.of_nat (length (phones r))));
      [lia|reflexivity].
Qed.

(** ** The collections of a record *)

Lemma list_remove_appended {A : Type} (eqb : A → A → bool) (x : A)
  (l : list A) :
  eqb x x = true →
  list_contains eqb x l = false →
  list_remove eqb x (list_append x l) = Ok l.
Proof.
  intros Hrefl. unfold list_contains, list_append.
  induction l as [|y l IH]; simpl.
  - now rewrite Hrefl.
  - destruct (eqb y x); simpl; [discriminate|].
    intros Hc. now rewrite (IH Hc).
Qed.

Lemma Field_eqb_refl (x : Field) : Field_eqb x x = true.
Proof. apply Nat.eqb_refl. Qed.

Lemma Tag_eqb_refl (x : Tag) : Tag_eqb x x = true.
Proof. apply Nat.eqb_refl. Qed.

(** X21.  Adding a phone that the record does not hold yet and
    removing it again gives the record back as it was; so for emails,
    notes and tags. *)
Theorem add_then_remove_restores (r : record) (x : Field) (t : Tag) :
  (list_contains Field_eqb x (phones r) = false →
   remove_phone x (fst (add_phone x r)) = (r, Ok tt))
  ∧ (list_contains Field_eqb x (emails r) = false →
     remove_email x (fst (add_email x r)) = (r, Ok tt))
  ∧ (list_contains Field_eqb x (notes r) = false →
     remove_note x (fst (add_note x r)) = (r, Ok tt))
  ∧ (list_contains Tag_eqb t (tags r) = false →
     remove_tag t (fst (add_tag t r)) = (r, Ok tt)).
Proof.
  destruct r as [i n ps es b a ts ns]. simpl.
  repeat split; intros Hc.
  - unfold remove_phone. simpl.
    now rewrite (list_remove_appended _ _ _ (Field_eqb_refl x) Hc).
  - unfold remove_email. simpl.
    now rewrite (list_remove_appended _ _ _ (Field_eqb_refl x) Hc).
  - unfold remove_note. simpl.
    now rewrite (list_remove_appended _ _ _ (Field_eqb_refl x) Hc).
  - unfold remove_tag. simpl.
    now rewrite (list_remove_appended _ _ _ (Tag_eqb_refl t) Hc).
Qed.

(** X22.  [edit_phone] with an old phone that the record does not
    hold raises [ValueError] and leaves the record as it was: the new
    phone is not added.  So for [edit_email] and [edit_note]. *)
Theorem edit_absent_changes_nothing (r : record) (old new : Field) :
  (list_contains Field_eqb old (phones r) = false →
   edit_phone old new r = (r, Raise ValueError))
  ∧ (list_contains Field_eqb old (emails r) = false →
     edit_email old new r = (r, Raise ValueError))
  ∧ (list_contains Field_eqb old (notes r) = false →
     edit_note old new r = (r, Raise ValueError)).
Proof.
  repeat split; intros Hc.
  - unfold edit_phone, remove_phone.
    now rewrite (list_remove_absent _ _ _ Hc).
  - unfold edit_email, remove_email.
    now rewrite (list_remove_absent _ _ _ Hc).
  - unfold edit_note, remove_note.
    now rewrite (list_remove_absent _ _ _ Hc).
Qed.

Lemma valid_email_one_at_witness :
  validate_email "anna@example.com" = true
  ∧ count_occ ascii_dec (list_ascii_of_string "anna@example.com") "@"%char
    = 1%nat.
Proof.
  split; [reflexivity|].
  exact (valid_email_one_at "anna@example.com" eq_refl).
Defined.

Lemma edit_record_phones_by_index_witness :
  NoDup (List.map oid (phones anna))
  ∧ 1 ≤ 2 ≤ Z.of_nat (length (phones anna))
  ∧ validate_phone "111222333" = true
  ∧ edit_record_phones (Some (Some 2)) "111222333" 92 anna
    = (set_phones [mkField 2 "123456789"; mkField 4 "555666777";
                   mkField 92 "111222333"] anna,
       Updated)
  ∧ edit_record_phones (Some (Some 2)) "111-222" 92 anna = (anna, BadValue).
Proof.
  assert (Hnd : NoDup (List.map oid (phones anna))).
  { simpl. repeat constructor; rewrite ?list_elem_of_In; simpl; intuition lia. }
  assert (Hk : 1 ≤ 2 ≤ Z.of_nat (length (phones anna))) by (simpl; lia).
  split; [exact Hnd|]. split; [exact Hk|]. split; [reflexivity|]. split.
  - exact (proj1 (edit_record_phones_by_index 2 "111222333" 92 anna) Hnd Hk).
  - exact (proj1 (edit_record_phones_by_index 2 "111-222" 92 anna) Hnd Hk).
Defined.

Lemma add_then_remove_restores_witness :
  list_contains Field_eqb stranger (phones anna) = false
  ∧ remove_phone stranger (fst (add_phone stranger anna)) = (anna, Ok tt).
Proof.
  split; [reflexivity|].
  exact (proj1 (add_then_remove_restores anna stranger (mkTag 1 "x"))
               eq_refl).
Defined.

(** A phone already in the list: the first occurrence goes, and the list
    is not what it was. *)
Example add_then_remove_present :
  phones (fst (remove_phone (mkField 2 "123456789")
                 (fst (add_phone (mkField 2 "123456789") anna))))
  = [mkField 3 "987654321"; mkField 4 "555666777"; mkField 2 "123456789"].
Proof. reflexivity. Qed.

Lemma edit_absent_changes_nothing_witness :
  list_contains Field_eqb stranger (phones anna) = false
  ∧ edit_phone stranger replacement anna = (anna, Raise ValueError).
Proof.
  split; [reflexivity|].
  exact (proj1 (edit_absent_changes_nothing anna stranger replacement)
               eq_refl).
Defined.
